(** * Defect tracking and triage engine of [web_tracker.py]

    A shallow embedding of the core of the Six Sigma defect tracker: the
    [Defect] model with its two subclasses, the [ResolutionEngine], the
    [DefectFactory], the [DefectLog] and the [TrackerController], followed
    by the properties of the specification proved about them.

    Modelling conventions.
    - Python objects are mutable and shared by reference: [Defect]
      instances live in a store ([heap]) and the log is a list of
      references into it, so that resolving a defect found in the log
      changes every alias of that object.
    - [datetime.now()] and the outcome of writing [database.pkl] are
      inputs supplied by the environment: every operation that reads the
      clock takes [now], every operation that may save takes the
      [WriteResult] of that attempt.
    - A [datetime] is its number of microseconds on the time line (a [Z]);
      a [timedelta] is a difference of two of them.
    - Python [str] values are modelled by [string] restricted to 7-bit
      text, on which [str.lower] only moves [A]..[Z] to [a]..[z].
    - Exceptions are the [Raise] outcomes of a state-and-exception monad;
      the state reached when the exception leaves the call is kept. *)

From Stdlib Require Import ZArith String Ascii DecimalString.
From Stdlib Require Import Sorting.Permutation Sorting.Sorted.
From stdpp Require Import gmap strings list.

Open Scope Z_scope.
Open Scope string_scope.

(** ** Text *)

(** [str.lower] on one character. *)
Definition lower_ascii (c : ascii) : ascii :=
  let n := nat_of_ascii c in
  if ((65 <=? n) && (n <=? 90))%nat then ascii_of_nat (n + 32) else c.

(** [s.lower()]. *)
Fixpoint lower (s : string) : string :=
  match s with
  | EmptyString => EmptyString
  | String c s' => String (lower_ascii c) (lower s')
  end.

(** [word in s]: [word] occurs in [s] as a contiguous run of characters. *)
Fixpoint contains (word s : string) : bool :=
  String.prefix word s ||
  match s with
  | EmptyString => false
  | String _ s' => contains word s'
  end.

(** [any(word in desc for word in words)]. *)
Definition any_in (words : list string) (desc : string) : bool :=
  existsb (fun word => contains word desc) words.

(** [str(n)] for an [int], as an f-string prints it. *)
Definition str_of_int (n : Z) : string := NilZero.string_of_int (Z.to_int n).

(** The line feed of ["...HALT !!!\nCRITICAL..."]. *)
Definition nl : string := String (ascii_of_nat 10) EmptyString.

(** ** Exceptions *)

(** The exception classes the core raises.  [TypeError] is what Python
    raises on [None - datetime]; [NoSuchObject] has no Python counterpart:
    it is the outcome of following a reference that the store does not
    hold, which [log_closed_reachable] shows never happens. *)
Inductive exn : Type :=
| DefectAlreadyResolvedException (msg : string)
| CriticalHaltException (msg : string)
| ValueError (msg : string)
| RuntimeError (msg : string)
| TypeError
| NoSuchObject (l : nat).

Inductive outcome (A : Type) : Type :=
| Return (a : A)
| Raise (e : exn).
Arguments Return {A} a.
Arguments Raise {A} e.

(** ** The Defect model *)

(** The two subclasses of [Defect] with the attribute each one adds. *)
Inductive DefectClass : Type :=
| MinorDefect (cosmetic_area : string)
| CriticalDefect (safety_risk : string).

Module Defect.

(** The attributes of an instance.  [resolved_at = None] is Python's
    [None]. *)
Record t : Type := mk {
  id : string;
  task_name : string;
  description : string;
  logged_by : string;
  is_resolved : bool;
  resolved_by : string;
  resolution_details : string;
  logged_at : Z;
  resolved_at : option Z;
  cls : DefectClass
}.

(** [Defect.__init__], run by both subclass constructors at time [now]. *)
Definition init (defect_id task_name description logged_by : string)
    (now : Z) (c : DefectClass) : t :=
  {| id := defect_id;
     task_name := task_name;
     description := description;
     logged_by := logged_by;
     is_resolved := false;
     resolved_by := "None";
     resolution_details := "Pending";
     logged_at := now;
     resolved_at := None;
     cls := c |}.

(** [Defect.resolve]: the outcome and the object as the call leaves it. *)
Definition resolve (resolver_name details : string) (now : Z) (self : t)
    : outcome unit * t :=
  if is_resolved self then
    (Raise (DefectAlreadyResolvedException "Defect already resolved."), self)
  else
    (Return tt,
     {| id := id self;
        task_name := task_name self;
        description := description self;
        logged_by := logged_by self;
        is_resolved := true;
        resolved_by := resolver_name;
        resolution_details := details;
        logged_at := logged_at self;
        resolved_at := Some now;
        cls := cls self |}).

(** One hour and one minute, in microseconds. *)
Definition hour_us : Z := 3600 * 1000000.
Definition minute_us : Z := 60 * 1000000.

(** The [timedelta] that [get_aging] measures: [end_time - logged_at].
    A resolved instance without [resolved_at] makes Python raise. *)
Definition aging_delta (now : Z) (self : t) : outcome Z :=
  if is_resolved self then
    match resolved_at self with
    | Some end_time => Return (end_time - logged_at self)
    | None => Raise TypeError
    end
  else Return (now - logged_at self).

(** The two [divmod]s of [get_aging]: [(int(hours), int(minutes))].
    [total_seconds()] is a float holding a whole number of microseconds;
    below 2^33 seconds (272 years) the float [divmod] by 3600 and by 60
    agrees with the floored integer division written here. *)
Definition hours_minutes (duration : Z) : Z * Z :=
  let hours := duration / hour_us in
  let remainder := duration mod hour_us in
  let minutes := remainder / minute_us in
  (hours, minutes).

(** [get_aging], the numbers before formatting. *)
Definition get_aging_hm (now : Z) (self : t) : outcome (Z * Z) :=
  match aging_delta now self with
  | Return duration => Return (hours_minutes duration)
  | Raise e => Raise e
  end.

(** [get_aging]: the text [f"{int(hours)}h {int(minutes)}m"]. *)
Definition get_aging (now : Z) (self : t) : outcome string :=
  match get_aging_hm now self with
  | Return (hours, minutes) =>
      Return (str_of_int hours ++ "h " ++ str_of_int minutes ++ "m")
  | Raise e => Raise e
  end.

(** [get_impact_level] and [get_priority_weight], as overridden in
    [MinorDefect] and [CriticalDefect]. *)
Definition get_impact_level (self : t) : string :=
  match cls self with
  | MinorDefect _ => "Minor"
  | CriticalDefect _ => "CRITICAL"
  end.

Definition get_priority_weight (self : t) : Z :=
  match cls self with
  | MinorDefect _ => 1
  | CriticalDefect _ => 10
  end.

(** [Defect.__lt__]. *)
Definition lt (self other : t) : bool :=
  if is_resolved self && negb (is_resolved other) then false
  else if negb (is_resolved self) && is_resolved other then true
  else
    let priority_diff := get_priority_weight other - get_priority_weight self in
    if negb (priority_diff =? 0)%Z then (priority_diff <? 0)%Z
    else (logged_at self >? logged_at other)%Z.

(** [isinstance(defect, CriticalDefect)]. *)
Definition is_critical (self : t) : bool :=
  match cls self with
  | CriticalDefect _ => true
  | MinorDefect _ => false
  end.

End Defect.

(** [MinorDefect.__init__] and [CriticalDefect.__init__]. *)
Definition MinorDefect_init (defect_id task_name desc user cosmetic_area : string)
    (now : Z) : Defect.t :=
  Defect.init defect_id task_name desc user now (MinorDefect cosmetic_area).

Definition CriticalDefect_init (defect_id task_name desc user safety_risk : string)
    (now : Z) : Defect.t :=
  Defect.init defect_id task_name desc user now (CriticalDefect safety_risk).

(** ** The resolution engine *)

Module ResolutionEngine.

Definition electrical_words : list string := ["wire"; "voltage"; "shock"; "electric"].
Definition cosmetic_words : list string := ["scratch"; "paint"; "dent"; "cosmetic"].
Definition hardware_words : list string := ["missing"; "screw"; "bolt"; "part"].
Definition software_words : list string := ["software"; "crash"; "bug"; "boot"].

Definition electrical_fix : string :=
  "Isolate power supply immediately. Replace damaged wiring, perform continuity testing, and verify against safety protocol IEEE-1584.".
Definition cosmetic_fix : string :=
  "Route to touch-up station. Buff affected area, reapply surface coating, and verify thickness under QA lighting.".
Definition hardware_fix : string :=
  "Perform line-stop. Replenish hardware bins, install missing components, and recalibrate automated dispensers.".
Definition software_fix : string :=
  "Extract error logs, flash firmware to the last known stable version, and reboot system in diagnostic mode.".
Definition escalation_fix : string :=
  "Halt operation immediately. Escalate to Senior Engineering for a 5-Whys Root Cause Analysis (RCA) before resuming.".
Definition tier1_fix : string :=
  "Apply standard Tier-1 rework procedure and flag unit for secondary QA inspection.".

(** [ResolutionEngine.suggest_fix]. *)
Definition suggest_fix (defect : Defect.t) : string :=
  let desc := lower (Defect.description defect) in
  if any_in electrical_words desc then electrical_fix
  else if any_in cosmetic_words desc then cosmetic_fix
  else if any_in hardware_words desc then hardware_fix
  else if any_in software_words desc then software_fix
  else if String.eqb (Defect.get_impact_level defect) "CRITICAL" then escalation_fix
  else tier1_fix.

End ResolutionEngine.

(** ** The program state *)

(** A reference to a [Defect] instance. *)
Abbreviation loc := nat (only parsing).

(** How one attempt to write [database.pkl] ends: [open] fails before the
    file is touched, or [pickle.dump] fails after [open(.., 'wb')] has
    truncated it, or the write completes.  [e] is the text of the
    exception. *)
Inductive WriteResult : Type :=
| WriteOk
| OpenFailed (e : string)
| DumpFailed (e : string).

(** What [pickle.dump(self.log_database, f)] records: the log's entries in
    order, each with the identity of its object, so that sharing
    survives. *)
Abbreviation Pickle := (list (nat * Defect.t)) (only parsing).

(** The contents of [database.pkl]. *)
Inductive File : Type :=
| NoFile
| Pickled (p : Pickle)
| Garbled.

(** What the controller does to its surroundings, oldest first: an attempt
    to save the pickled log, and the lines sent to [system_audit.log]. *)
Inductive Event : Type :=
| EvSave (p : Pickle) (r : WriteResult)
| EvInfo (msg : string)
| EvError (msg : string).

Record World : Type := mkWorld {
  heap : gmap nat Defect.t;          (* every Defect instance built so far *)
  log_database : list nat;           (* controller.log_database.defects *)
  database_pkl : File;
  events : list Event
}.

(** The state-and-exception monad of the stateful code. *)
Definition M (A : Type) : Type := World -> outcome A * World.

#[global] Instance M_ret : MRet M := fun A a w => (Return a, w).
#[global] Instance M_bind : MBind M := fun A B f m w =>
  match m w with
  | (Return a, w') => f a w'
  | (Raise e, w') => (Raise e, w')
  end.

Definition raise {A : Type} (e : exn) : M A := fun w => (Raise e, w).

(** Reading an attribute through a reference, and writing the object back. *)
Definition deref (l : loc) : M Defect.t := fun w =>
  match heap w !! l with
  | Some d => (Return d, w)
  | None => (Raise (NoSuchObject l), w)
  end.

Definition store (l : loc) (d : Defect.t) : M unit := fun w =>
  (Return tt,
   {| heap := <[l := d]> (heap w);
      log_database := log_database w;
      database_pkl := database_pkl w;
      events := events w |}).

(** A new instance gets an identity no live object has. *)
Definition alloc (d : Defect.t) : M loc := fun w =>
  let l := fresh (dom (heap w)) in
  (Return l,
   {| heap := <[l := d]> (heap w);
      log_database := log_database w;
      database_pkl := database_pkl w;
      events := events w |}).

Definition set_defects (ds : list loc) : M unit := fun w =>
  (Return tt,
   {| heap := heap w;
      log_database := ds;
      database_pkl := database_pkl w;
      events := events w |}).

Definition set_file (f : File) : M unit := fun w =>
  (Return tt,
   {| heap := heap w;
      log_database := log_database w;
      database_pkl := f;
      events := events w |}).

Definition emit (e : Event) : M unit := fun w =>
  (Return tt,
   {| heap := heap w;
      log_database := log_database w;
      database_pkl := database_pkl w;
      events := events w ++ [e] |}).

(** The objects behind a list of references, in order. *)
Fixpoint objects (ds : list loc) : M Pickle :=
  match ds with
  | [] => mret []
  | l :: rest =>
      d ← deref l;
      ps ← objects rest;
      mret ((l, d) :: ps)
  end.

(** [Defect.resolve] called on the object behind [l]. *)
Definition resolve_at (l : loc) (resolver_name details : string) (now : Z)
    : M unit :=
  d ← deref l;
  match Defect.resolve resolver_name details now d with
  | (Return _, d') => store l d'
  | (Raise e, d') => store l d';; raise e
  end.

(** ** The factory *)

Module DefectFactory.

(** [DefectFactory.create_defect], called at time [now]; the result is
    the reference to the new instance. *)
Definition create_defect (defect_type defect_id task desc user detail : string)
    (now : Z) : M loc :=
  if String.eqb (lower defect_type) "critical" then
    alloc (CriticalDefect_init defect_id task desc user detail now)
  else
    alloc (MinorDefect_init defect_id task desc user detail now).

End DefectFactory.

(** ** The log *)

Module DefectLog.

Definition get_defects : M (list loc) := fun w => (Return (log_database w), w).

(** [add_defect]: [self.defects.append(defect)]. *)
Definition add_defect (defect : loc) : M unit :=
  ds ← get_defects;
  set_defects (ds ++ [defect]).

(** The loop of [find_defect] over the remaining entries. *)
Fixpoint find_in (ds : list loc) (defect_id : string) : M (option loc) :=
  match ds with
  | [] => mret None
  | l :: rest =>
      d ← deref l;
      if String.eqb (lower (Defect.id d)) (lower defect_id) then mret (Some l)
      else find_in rest defect_id
  end.

Definition find_defect (defect_id : string) : M (option loc) :=
  ds ← get_defects;
  find_in ds defect_id.

(** The comprehension [[d for d in self.defects if not d.is_resolved]]. *)
Fixpoint unresolved_of (ds : list loc) : M (list loc) :=
  match ds with
  | [] => mret []
  | l :: rest =>
      d ← deref l;
      kept ← unresolved_of rest;
      mret (if negb (Defect.is_resolved d) then l :: kept else kept)
  end.

Definition remove_resolved_defects : M unit :=
  ds ← get_defects;
  kept ← unresolved_of ds;
  set_defects kept.

End DefectLog.

(** ** Sorting *)

(** [list.sort()] is CPython's built-in: a stable sort that compares with
    [<] only.  It is modelled by the stable insertion sort below (what the
    built-in itself runs on short lists); [entries_sorting_unique] shows
    that every stable sort returns this very list when [<] is
    [Defect.__lt__]. *)
Section Sort.
Context {A : Type} (ltb : A -> A -> bool).

(** Put [x] in front of the first element it is smaller than. *)
Fixpoint insert_sorted (x : A) (l : list A) : list A :=
  match l with
  | [] => [x]
  | y :: l' => if ltb x y then x :: y :: l' else y :: insert_sorted x l'
  end.

Definition list_sort (l : list A) : list A :=
  fold_left (fun acc x => insert_sorted x acc) l [].
End Sort.

(** ** The controller *)

Module TrackerController.

(** [force_save_data], whose write ends as [r] says.  A failure is sent
    to the audit log and swallowed. *)
Definition force_save_data (r : WriteResult) : M unit :=
  ds ← DefectLog.get_defects;
  p ← objects ds;
  emit (EvSave p r);;
  match r with
  | WriteOk => set_file (Pickled p)
  | OpenFailed e =>
      emit (EvError ("Failed to save database state: " ++ e))
  | DumpFailed e =>
      set_file Garbled;;
      emit (EvError ("Failed to save database state: " ++ e))
  end.

(** [report_defect]. *)
Definition report_defect (defect : loc) (r : WriteResult) : M unit :=
  DefectLog.add_defect defect;;
  force_save_data r;;
  d ← deref defect;
  emit (EvInfo ("New defect logged: " ++ Defect.id d));;
  if Defect.is_critical d then
    raise (CriticalHaltException
             ("!!! SYSTEM HALT !!!" ++ nl ++ "CRITICAL DEFECT LOGGED: "
              ++ Defect.description d))
  else mret tt.

(** [process_resolution]. *)
Definition process_resolution (defect_id manager_name details : string)
    (now : Z) (r : WriteResult) : M unit :=
  found ← DefectLog.find_defect defect_id;
  match found with
  | Some defect =>
      resolve_at defect manager_name details now;;
      force_save_data r
  | None =>
      raise (ValueError ("Error: Defect ID '" ++ defect_id ++ "' not found."))
  end.

(** [clear_resolved_defects]. *)
Definition clear_resolved_defects (r : WriteResult) : M unit :=
  before ← DefectLog.get_defects;
  let initial_count := length before in
  DefectLog.remove_resolved_defects;;
  after ← DefectLog.get_defects;
  if negb (initial_count =? length after)%nat then force_save_data r
  else raise (RuntimeError "No resolved defects found to clear.").

(** [get_all_defects_sorted]: a copy of the log, sorted by [__lt__] on
    the objects. *)
Definition get_all_defects_sorted : M (list loc) :=
  ds ← DefectLog.get_defects;
  objs ← objects ds;
  mret ((list_sort (fun a b => Defect.lt a.2 b.2) objs).*1).

(** [load_data] when the process starts: the log and its objects come
    from [database.pkl]; any failure to read it gives an empty log. *)
Definition load_data (w : World) : World :=
  match database_pkl w with
  | Pickled p =>
      {| heap := list_to_map p;
         log_database := p.*1;
         database_pkl := database_pkl w;
         events := events w |}
  | _ =>
      {| heap := ∅;
         log_database := [];
         database_pkl := database_pkl w;
         events := events w |}
  end.

(** The generator of [count_defects_for_task] over the remaining
    entries: one for every entry whose task name equals [task_name] once
    both are lower-cased. *)
Fixpoint count_in (ds : list loc) (task_name : string) : M nat :=
  match ds with
  | [] => mret 0%nat
  | l :: rest =>
      d ← deref l;
      n ← count_in rest task_name;
      mret (if String.eqb (lower (Defect.task_name d)) (lower task_name) then S n else n)
  end.

(** [count_defects_for_task]. *)
Definition count_defects_for_task (task_name : string) : M nat :=
  ds ← DefectLog.get_defects;
  count_in ds task_name.

End TrackerController.

(** ** The configuration *)

(** What [application.json] can be when [ConfigManager] is built: absent,
    present but not readable as JSON, or a JSON object whose values are
    strings (the only documents the program itself writes). *)
Inductive ConfigFile : Type :=
| CfgMissing
| CfgUnreadable
| CfgProps (props : gmap string string).

Module ConfigManager.
Section WithHash.

(** [SecurityUtils.hash_password]: SHA-256 in hexadecimal, taken as
    given. *)
Variable hash_password : string -> string.

(** The dictionary of [_create_default_config]. *)
Definition default_props : gmap string string :=
  {[ "db.url" := "jdbc:mysql://localhost:3306/six_sigma";
     "db.user" := "root";
     "db.password" := "password";
     "admin.hash" := hash_password "sigma123" ]}.

(** [_create_default_config] when writing the file succeeds ([true]) or
    raises ([false], and the exception leaves the constructor): the
    properties and the file afterwards. *)
Definition create_default_config (write_ok : bool) (f : ConfigFile)
    : option (gmap string string * ConfigFile) :=
  if write_ok then Some (default_props, CfgProps default_props) else None.

(** [ConfigManager.__init__]: the properties and the file it leaves, or
    [None] when the exception of a failed write escapes. *)
Definition init (write_ok : bool) (f : ConfigFile)
    : option (gmap string string * ConfigFile) :=
  match f with
  | CfgMissing => create_default_config write_ok f
  | CfgProps props => Some (props, f)
  | CfgUnreadable => create_default_config write_ok f
  end.

(** [get_property]: [self.props.get(key)]. *)
Definition get_property (props : gmap string string) (key : string) : option string :=
  props !! key.

(** The test of the manager login:
    [hash_password(admin_pass) == controller.get_admin_hash()]. *)
Definition manager_login (props : gmap string string) (admin_pass : string) : bool :=
  match get_property props "admin.hash" with
  | Some h => String.eqb (hash_password admin_pass) h
  | None => false
  end.

End WithHash.
End ConfigManager.

(** ** The web view *)

(** One dictionary of [table_data]. *)
Record Row : Type := mkRow {
  row_ID : string;
  row_Task : string;
  row_Priority : string;
  row_Status : string;
  row_Aging : string;
  row_Logged_By : string;
  row_Description : string
}.

(** A pure computation that may raise, run inside the monad. *)
Definition lift {A : Type} (o : outcome A) : M A := fun w => (o, w).

Module WebView.

(** The text a row is searched in. *)
Definition row_text (d : Defect.t) : string :=
  lower (Defect.id d ++ " " ++ Defect.task_name d ++ " " ++ Defect.get_impact_level d
         ++ " " ++ Defect.logged_by d ++ " " ++ Defect.description d).

(** The loop that fills [table_data], from the [i]-th defect of the
    sorted list on; [clock i] is the time [get_aging] reads for it. *)
Fixpoint table_rows (clock : nat -> Z) (search_term : string) (i : nat)
    (defects : list loc) : M (list Row) :=
  match defects with
  | [] => mret []
  | l :: rest =>
      d ← deref l;
      if contains (lower search_term) (row_text d) then
        aging ← lift (Defect.get_aging (clock i) d);
        rows ← table_rows clock search_term (S i) rest;
        mret ({| row_ID := Defect.id d;
                 row_Task := Defect.task_name d;
                 row_Priority := Defect.get_impact_level d;
                 row_Status := if Defect.is_resolved d then "Resolved" else "Unresolved";
                 row_Aging := aging;
                 row_Logged_By := Defect.logged_by d;
                 row_Description := Defect.description d |} :: rows)
      else table_rows clock search_term (S i) rest
  end.

(** The main data table for a search term. *)
Definition table_data (clock : nat -> Z) (search_term : string) : M (list Row) :=
  defects ← TrackerController.get_all_defects_sorted;
  table_rows clock search_term 0 defects.

End WebView.

(** ** Notions used to state the properties *)

(** Every reference in the log points to a live object. *)
Definition log_closed (w : World) : Prop :=
  Forall (fun l => is_Some (heap w !! l)) (log_database w).

(** The entries of a list of references paired with their objects, as a
    pure function of the store. *)
Definition snapshot (h : gmap nat Defect.t) (ds : list nat) : list (nat * Defect.t) :=
  omap (fun l => pair l <$> h !! l) ds.

(** The object behind [l] carries the identifier [defect_id], case
    ignored. *)
Definition id_matches (h : gmap nat Defect.t) (defect_id : string) (l : nat) : bool :=
  match h !! l with
  | Some d => String.eqb (lower (Defect.id d)) (lower defect_id)
  | None => false
  end.

(** The object behind [l] is not resolved. *)
Definition unresolved_in (h : gmap nat Defect.t) (l : nat) : bool :=
  match h !! l with
  | Some d => negb (Defect.is_resolved d)
  | None => false
  end.

(** What one call of [force_save_data] adds to the history when the log
    pickles to [p] and the write ends as [r], and the file it leaves. *)
Definition save_events (p : list (nat * Defect.t)) (r : WriteResult) : list Event :=
  EvSave p r ::
  match r with
  | WriteOk => []
  | OpenFailed e | DumpFailed e => [EvError ("Failed to save database state: " ++ e)]
  end.

Definition file_after (p : list (nat * Defect.t)) (r : WriteResult) (old : File) : File :=
  match r with
  | WriteOk => Pickled p
  | OpenFailed _ => old
  | DumpFailed _ => Garbled
  end.

(** Sorting by a comparison [ltb]: [a] and [b] are tied when neither is
    smaller; [l'] is a stable sorting of [l] when no element of [l'] is
    smaller than an earlier one and, for every [a], the elements tied with
    [a] are the same in both and come in the same order. *)
Section SortSpec.
Context {A : Type} (ltb : A -> A -> bool).

Definition tied (a b : A) : bool := negb (ltb a b) && negb (ltb b a).

Definition ordered (l : list A) : Prop :=
  StronglySorted (fun a b => ltb b a = false) l.

Definition stable_sorting (l l' : list A) : Prop :=
  ordered l' /\ forall a, List.filter (tied a) l' = List.filter (tied a) l.
End SortSpec.

(** The first tier of the triage order as a number: unresolved before
    resolved. *)
Definition rank (d : Defect.t) : Z := if Defect.is_resolved d then 1 else 0.

(** The comparison that [get_all_defects_sorted] sorts the entries by. *)
Definition entry_lt (a b : nat * Defect.t) : bool := Defect.lt a.2 b.2.



(** The state of a first start: no object, an empty log, no file. *)
Definition empty_world : World :=
  {| heap := ∅; log_database := []; database_pkl := NoFile; events := [] |}.

(** The text carried by the halt raised for a critical defect. *)
Definition halt_message (d : Defect.t) : string :=
  "!!! SYSTEM HALT !!!" ++ nl ++ "CRITICAL DEFECT LOGGED: " ++ Defect.description d.

(** Sample objects used in the examples. *)
Definition sample_minor : Defect.t :=
  MinorDefect_init "D-001" "Painting" "small paint scratch" "worker" "N/A" 0.
Definition sample_critical : Defect.t :=
  CriticalDefect_init "D-002" "Wiring" "Exposed wire causing shock hazard" "worker" "N/A" 5.

(** [resolved_at] is set exactly when [is_resolved] is. *)
Definition consistent (d : Defect.t) : Prop :=
  Defect.is_resolved d = true <-> is_Some (Defect.resolved_at d).

(** One command of the running program: building a defect with the
    factory, reporting an object built before, resolving through the
    controller or directly on an object, clearing the resolved defects. *)
Inductive step : World -> World -> Prop :=
| step_create (defect_type defect_id task desc user detail : string) (now : Z) (w : World) :
    step w (DefectFactory.create_defect defect_type defect_id task desc user detail now w).2
| step_report (defect : nat) (r : WriteResult) (w : World) :
    is_Some (heap w !! defect) ->
    step w (TrackerController.report_defect defect r w).2
| step_process_resolution (defect_id manager_name details : string) (now : Z)
      (r : WriteResult) (w : World) :
    step w (TrackerController.process_resolution defect_id manager_name details now r w).2
| step_resolve (l : nat) (resolver_name details : string) (now : Z) (w : World) :
    is_Some (heap w !! l) ->
    step w (resolve_at l resolver_name details now w).2
| step_clear (r : WriteResult) (w : World) :
    step w (TrackerController.clear_resolved_defects r w).2.

(** The states the program can be in: it first starts with no file, runs
    commands, and may at any point be stopped and started again, which
    reloads the log from the file. *)
Inductive reachable : World -> Prop :=
| reachable_start : reachable empty_world
| reachable_step (w w' : World) : reachable w -> step w w' -> reachable w'
| reachable_restart (w : World) : reachable w -> reachable (TrackerController.load_data w).

(** What a command may do to an object: nothing, or resolve it when it
    was not resolved. *)
Definition object_step (d d' : Defect.t) : Prop :=
  d' = d
  \/ (Defect.is_resolved d = false
      /\ exists resolver_name details now,
           Defect.resolve resolver_name details now d = (Return tt, d')).

(** What holds in every reachable state. *)
Record invariant (w : World) : Prop := mkInvariant {
  inv_closed : log_closed w;
  inv_heap : forall l d, heap w !! l = Some d -> consistent d;
  inv_file : forall p, database_pkl w = Pickled p -> Forall (fun e => consistent e.2) p
}.

(** The state after building the critical sample with the factory and
    reporting it. *)
Definition world_reported : World :=
  (TrackerController.report_defect 0 WriteOk
     (DefectFactory.create_defect "Critical" "D-002" "Wiring"
        "Exposed wire causing shock hazard" "worker" "N/A" 5 empty_world).2).2.

(** Critical defects described by a hardware word in capitals, alone and
    next to a software word. *)
Definition sample_hardware : Defect.t :=
  CriticalDefect_init "D-004" "Assembly" "Unit BOLT FAULT" "worker" "N/A" 6.
Definition sample_software_hardware : Defect.t :=
  CriticalDefect_init "D-005" "Assembly" "Software reports a MISSING Bolt" "worker" "N/A" 7.

(** A store holding the minor sample, not yet reported. *)
Definition world_unreported_minor : World :=
  {| heap := {[ 0%nat := sample_minor ]};
     log_database := [];
     database_pkl := NoFile;
     events := [] |}.

(** A store holding the critical sample, not yet reported. *)
Definition world_unreported : World :=
  {| heap := {[ 0%nat := sample_critical ]};
     log_database := [];
     database_pkl := NoFile;
     events := [] |}.

(** A log of three reported defects, the second of them resolved. *)
Definition sample_resolved : Defect.t :=
  (Defect.resolve "manager" "Fixed by manual protocol." 9
     (MinorDefect_init "D-003" "Assembly" "assembly loose" "worker" "N/A" 2)).2.

Definition world_three : World :=
  {| heap := {[ 0%nat := sample_critical; 1%nat := sample_resolved; 2%nat := sample_minor ]};
     log_database := [0%nat; 1%nat; 2%nat];
     database_pkl := NoFile;
     events := [] |}.

(** The object behind [l] belongs to the task [task_name], case
    ignored. *)
Definition task_matches (h : gmap nat Defect.t) (task_name : string) (l : nat) : bool :=
  match h !! l with
  | Some d => String.eqb (lower (Defect.task_name d)) (lower task_name)
  | None => false
  end.

(** Two states of an object that differ at most in its resolution. *)
Definition same_identity (d d' : Defect.t) : Prop :=
  Defect.id d' = Defect.id d
  /\ Defect.task_name d' = Defect.task_name d
  /\ Defect.description d' = Defect.description d
  /\ Defect.logged_by d' = Defect.logged_by d
  /\ Defect.logged_at d' = Defect.logged_at d
  /\ Defect.cls d' = Defect.cls d.

(** The elements of a list with their positions, counted from [i]. *)
Fixpoint numbered {A : Type} (i : nat) (l : list A) : list (nat * A) :=
  match l with
  | [] => []
  | x :: l' => (i, x) :: numbered (S i) l'
  end.

(** A row of the table displays the object [d] as read at time [now]:
    its columns are the attributes of the object, its status is spelled
    out, and its aging is the one [get_aging] returns at that time. *)
Definition row_shows (now : Z) (row : Row) (d : Defect.t) : Prop :=
  row_ID row = Defect.id d
  /\ row_Task row = Defect.task_name d
  /\ row_Priority row = Defect.get_impact_level d
  /\ row_Status row = (if Defect.is_resolved d then "Resolved" else "Unresolved")
  /\ row_Logged_By row = Defect.logged_by d
  /\ row_Description row = Defect.description d
  /\ Defect.get_aging now d = Return (row_Aging row).

(** The entries of the log in triage order. *)
Definition triage_entries (w : World) : list (nat * Defect.t) :=
  list_sort entry_lt (snapshot (heap w) (log_database w)).

(** The entries behind the rows are live and consistent. *)
Definition entries_ok (w : World) (es : list (nat * Defect.t)) : Prop :=
  Forall (fun e => heap w !! e.1 = Some e.2 /\ consistent e.2) es.

(** A log holding two defects under the same identifier, the first one
    resolved. *)
Definition sample_twin : Defect.t :=
  MinorDefect_init "d-003" "Assembly" "cover dented" "worker" "N/A" 4.

Definition world_twins : World :=
  {| heap := {[ 0%nat := sample_resolved; 1%nat := sample_twin ]};
     log_database := [0%nat; 1%nat];
     database_pkl := NoFile;
     events := [] |}.

(** A hash function standing for SHA-256 in the examples. *)
Definition sample_hash (s : string) : string := "#" ++ s.

(** * Properties *)

(** ** Text *)

Lemma append_nil_l (s : string) : EmptyString ++ s = s.
Proof. reflexivity. Qed.

Lemma append_cons (c : ascii) (a b : string) : String c a ++ b = String c (a ++ b).
Proof. reflexivity. Qed.

Lemma append_assoc (a b c : string) : (a ++ b) ++ c = a ++ b ++ c.
Proof.
  induction a as [|x a IH]; [reflexivity|].
  now rewrite !append_cons, IH.
Qed.


Lemma prefix_nil (s : string) : String.prefix EmptyString s = true.
Proof. now destruct s. Qed.

Lemma prefix_spec (word s : string) :
  String.prefix word s = true <-> exists post, s = word ++ post.
Proof.
  revert s. induction word as [|c word IH]; intros s.
  - rewrite prefix_nil. split; [intros _; now exists s | reflexivity].
  - destruct s as [|c' s]; simpl.
    + split; [discriminate | intros [post Hp]; discriminate].
    + destruct (ascii_dec c c') as [->|Hne].
      * rewrite IH. split; intros [post Hp]; exists post;
          rewrite append_cons in *; congruence.
      * split; [discriminate | intros [post Hp]].
        rewrite append_cons in Hp. congruence.
Qed.

Lemma contains_nil (word : string) :
  contains word EmptyString = String.prefix word EmptyString || false.
Proof. reflexivity. Qed.

Lemma contains_cons (word : string) (c : ascii) (s : string) :
  contains word (String c s) = String.prefix word (String c s) || contains word s.
Proof. reflexivity. Qed.

Lemma contains_spec (word s : string) :
  contains word s = true <-> exists pre post, s = pre ++ word ++ post.
Proof.
  induction s as [|c s IH]; [rewrite contains_nil | rewrite contains_cons].
  - rewrite orb_false_r, prefix_spec. split.
    + intros [post Hp]. now exists EmptyString, post.
    + intros [pre [post Hp]]. destruct pre; [now exists post | discriminate].
  - rewrite orb_true_iff, prefix_spec, IH. split.
    + intros [[post Hp] | [pre [post Hp]]].
      * now exists EmptyString, post.
      * exists (String c pre), post. now rewrite append_cons, Hp.
    + intros [pre [post Hp]]. destruct pre as [|c' pre].
      * left. now exists post.
      * right. exists pre, post. rewrite append_cons in Hp. congruence.
Qed.


(** ** The Defect model *)






(** C3: [resolve] on an already resolved defect raises
    [DefectAlreadyResolvedException] and leaves the object as it was; on
    an unresolved defect it returns, having set [is_resolved],
    [resolved_by], [resolution_details] and [resolved_at] (to the current
    time) and nothing else; it raises in no other case. *)
Theorem resolve_spec (resolver_name details : string) (now : Z) (self : Defect.t) :
  (Defect.is_resolved self = true ->
     Defect.resolve resolver_name details now self =
       (Raise (DefectAlreadyResolvedException "Defect already resolved."), self))
  /\ (Defect.is_resolved self = false ->
      exists self',
        Defect.resolve resolver_name details now self = (Return tt, self')
        /\ Defect.is_resolved self' = true
        /\ Defect.resolved_by self' = resolver_name
        /\ Defect.resolution_details self' = details
        /\ Defect.resolved_at self' = Some now
        /\ Defect.id self' = Defect.id self
        /\ Defect.task_name self' = Defect.task_name self
        /\ Defect.description self' = Defect.description self
        /\ Defect.logged_by self' = Defect.logged_by self
        /\ Defect.logged_at self' = Defect.logged_at self
        /\ Defect.cls self' = Defect.cls self)
  /\ (forall e self',
        Defect.resolve resolver_name details now self = (Raise e, self') ->
        Defect.is_resolved self = true
        /\ e = DefectAlreadyResolvedException "Defect already resolved.").
Proof.
  unfold Defect.resolve. destruct (Defect.is_resolved self) eqn:Hres.
  - split; [reflexivity|]. split; [discriminate|].
    intros e self' H. inversion H. split; reflexivity.
  - split; [discriminate|]. split.
    + intros _. eexists. split; [reflexivity|]. simpl. repeat split.
    + intros e self' H. discriminate H.
Qed.

(** C3, on concrete objects: a first call succeeds, a second one is
    refused and changes nothing. *)
Lemma resolve_spec_witness :
  Defect.is_resolved sample_minor = false
  /\ exists d,
       Defect.resolve "manager" "Fixed by manual protocol." 7 sample_minor = (Return tt, d)
       /\ Defect.resolved_at d = Some 7
       /\ Defect.resolve "other" "again" 9 d =
            (Raise (DefectAlreadyResolvedException "Defect already resolved."), d).
Proof.
  split; [reflexivity|].
  destruct (resolve_spec "manager" "Fixed by manual protocol." 7 sample_minor)
    as (_ & Hok & _).
  destruct (Hok eq_refl) as (d & Hd & Hres & _ & _ & Hat & _).
  exists d. split; [exact Hd|]. split; [exact Hat|].
  apply (resolve_spec "other" "again" 9 d). exact Hres.
Defined.




(** ** The factory *)

Lemma alloc_fresh (w : World) :
  heap w !! fresh (dom (heap w)) = None.
Proof. apply not_elem_of_dom, is_fresh. Qed.

(** C9: [create_defect] lower-cases the tag and compares it with
    ["critical"]: when they are equal the new object is a [CriticalDefect]
    (impact level ["CRITICAL"], weight 10), otherwise a [MinorDefect]
    (impact level ["Minor"], weight 1); in both cases [detail] is stored
    as the attribute of the subclass, the object is new and unresolved and
    nothing else changes.  The weight depends on the subclass only. *)
Theorem create_defect_spec
    (defect_type defect_id task desc user detail : string) (now : Z) (w : World) :
  (exists l d w',
      DefectFactory.create_defect defect_type defect_id task desc user detail now w
        = (Return l, w')
      /\ heap w !! l = None
      /\ heap w' = <[l := d]> (heap w)
      /\ log_database w' = log_database w
      /\ database_pkl w' = database_pkl w
      /\ events w' = events w
      /\ d = Defect.init defect_id task desc user now (Defect.cls d)
      /\ (lower defect_type = "critical" ->
            Defect.cls d = CriticalDefect detail
            /\ Defect.get_impact_level d = "CRITICAL"
            /\ Defect.get_priority_weight d = 10)
      /\ (lower defect_type <> "critical" ->
            Defect.cls d = MinorDefect detail
            /\ Defect.get_impact_level d = "Minor"
            /\ Defect.get_priority_weight d = 1))
  /\ (forall d : Defect.t,
        Defect.get_priority_weight d = if Defect.is_critical d then 10 else 1).
Proof.
  split.
  - unfold DefectFactory.create_defect.
    destruct (String.eqb_spec (lower defect_type) "critical") as [Heq|Hne].
    + exists (fresh (dom (heap w))),
        (CriticalDefect_init defect_id task desc user detail now).
      eexists. split; [reflexivity|]. split; [apply alloc_fresh|].
      simpl. repeat (split || intro); try reflexivity; contradiction.
    + exists (fresh (dom (heap w))),
        (MinorDefect_init defect_id task desc user detail now).
      eexists. split; [reflexivity|]. split; [apply alloc_fresh|].
      simpl. repeat (split || intro); try reflexivity; contradiction.
  - intros d. unfold Defect.get_priority_weight, Defect.is_critical.
    now destruct (Defect.cls d).
Qed.

(** C9, on concrete tags: case does not matter for ["critical"], and any
    other tag gives a minor defect. *)
Lemma create_defect_spec_witness :
  lower "cRiTiCaL" = "critical" /\ lower "Minor" <> "critical"
  /\ (exists l d w',
        DefectFactory.create_defect "cRiTiCaL" "D-007" "Wiring" "loose" "ann" "N/A" 3
          empty_world = (Return l, w')
        /\ heap w' = <[l := d]> (heap empty_world)
        /\ Defect.cls d = CriticalDefect "N/A"
        /\ Defect.get_priority_weight d = 10)
  /\ (exists l d w',
        DefectFactory.create_defect "Minor" "D-008" "Paint" "dull" "bob" "N/A" 4
          empty_world = (Return l, w')
        /\ heap w' = <[l := d]> (heap empty_world)
        /\ Defect.cls d = MinorDefect "N/A"
        /\ Defect.get_priority_weight d = 1).
Proof.
  split; [reflexivity|]. split; [discriminate|]. split.
  - destruct (create_defect_spec "cRiTiCaL" "D-007" "Wiring" "loose" "ann" "N/A" 3
                empty_world)
      as [(l & d & w' & Hrun & _ & Hheap & _ & _ & _ & _ & Hcrit & _) _].
    exists l, d, w'. split; [exact Hrun|]. split; [exact Hheap|].
    destruct (Hcrit eq_refl) as (Hcls & _ & Hw). split; assumption.
  - destruct (create_defect_spec "Minor" "D-008" "Paint" "dull" "bob" "N/A" 4
                empty_world)
      as [(l & d & w' & Hrun & _ & Hheap & _ & _ & _ & _ & _ & Hmin) _].
    exists l, d, w'. split; [exact Hrun|]. split; [exact Hheap|].
    destruct Hmin as (Hcls & _ & Hw); [discriminate|]. split; assumption.
Defined.

(** ** The resolution engine *)


(** C5: [suggest_fix] depends on the description and the subclass only.
    It tests the lower-cased description against the electrical, cosmetic,
    hardware and software words in this order and answers with the text of
    the first set that matches; when none matches, the answer is the
    escalation text for a critical defect and the Tier-1 text otherwise.
    The four descriptions of the specification get the texts it names;
    each of the sixteen keywords is found whatever its case; a description
    matching two sets gets the text of the earlier one; the keyword sets
    and the six texts are those of the source. *)
Theorem suggest_fix_spec :
  (forall d d' : Defect.t,
      Defect.description d = Defect.description d' ->
      Defect.is_critical d = Defect.is_critical d' ->
      ResolutionEngine.suggest_fix d = ResolutionEngine.suggest_fix d')
  /\ (forall d : Defect.t,
        let desc := lower (Defect.description d) in
        (any_in ResolutionEngine.electrical_words desc = true ->
           ResolutionEngine.suggest_fix d = ResolutionEngine.electrical_fix)
        /\ (any_in ResolutionEngine.electrical_words desc = false ->
            any_in ResolutionEngine.cosmetic_words desc = true ->
            ResolutionEngine.suggest_fix d = ResolutionEngine.cosmetic_fix)
        /\ (any_in ResolutionEngine.electrical_words desc = false ->
            any_in ResolutionEngine.cosmetic_words desc = false ->
            any_in ResolutionEngine.hardware_words desc = true ->
            ResolutionEngine.suggest_fix d = ResolutionEngine.hardware_fix)
        /\ (any_in ResolutionEngine.electrical_words desc = false ->
            any_in ResolutionEngine.cosmetic_words desc = false ->
            any_in ResolutionEngine.hardware_words desc = false ->
            any_in ResolutionEngine.software_words desc = true ->
            ResolutionEngine.suggest_fix d = ResolutionEngine.software_fix)
        /\ (any_in ResolutionEngine.electrical_words desc = false ->
            any_in ResolutionEngine.cosmetic_words desc = false ->
            any_in ResolutionEngine.hardware_words desc = false ->
            any_in ResolutionEngine.software_words desc = false ->
            ResolutionEngine.suggest_fix d =
              if Defect.is_critical d then ResolutionEngine.escalation_fix
              else ResolutionEngine.tier1_fix))
  /\ (forall d : Defect.t,
        (Defect.description d = "Exposed wire causing shock hazard" ->
           ResolutionEngine.suggest_fix d = ResolutionEngine.electrical_fix)
        /\ (Defect.description d = "small paint scratch" ->
            ResolutionEngine.suggest_fix d = ResolutionEngine.cosmetic_fix)
        /\ (Defect.description d = "unit randomly reboots" ->
            ResolutionEngine.suggest_fix d = ResolutionEngine.software_fix)
        /\ (Defect.description d = "assembly loose" ->
            Defect.get_impact_level d = "CRITICAL" ->
            ResolutionEngine.suggest_fix d = ResolutionEngine.escalation_fix)
        /\ (Defect.description d = "assembly loose" ->
            Defect.get_impact_level d = "Minor" ->
            ResolutionEngine.suggest_fix d = ResolutionEngine.tier1_fix))
  /\ (forall (d : Defect.t) (word : string),
        (In word ["WIRE"; "Voltage"; "SHOCK"; "ElecTric"] ->
           Defect.description d = "Unit " ++ word ++ " FAULT" ->
           ResolutionEngine.suggest_fix d = ResolutionEngine.electrical_fix)
        /\ (In word ["SCRATCH"; "Paint"; "DENT"; "CosMetic"] ->
            Defect.description d = "Unit " ++ word ++ " FAULT" ->
            ResolutionEngine.suggest_fix d = ResolutionEngine.cosmetic_fix)
        /\ (In word ["MISSING"; "Screw"; "BOLT"; "ParT"] ->
            Defect.description d = "Unit " ++ word ++ " FAULT" ->
            ResolutionEngine.suggest_fix d = ResolutionEngine.hardware_fix)
        /\ (In word ["SOFTWARE"; "Crash"; "BUG"; "BooT"] ->
            Defect.description d = "Unit " ++ word ++ " FAULT" ->
            ResolutionEngine.suggest_fix d = ResolutionEngine.software_fix))
  /\ (forall d : Defect.t,
        (Defect.description d = "Paint chipped near a WIRE" ->
           ResolutionEngine.suggest_fix d = ResolutionEngine.electrical_fix)
        /\ (Defect.description d = "DENT beside a missing Screw" ->
            ResolutionEngine.suggest_fix d = ResolutionEngine.cosmetic_fix)
        /\ (Defect.description d = "Software reports a MISSING Bolt" ->
            ResolutionEngine.suggest_fix d = ResolutionEngine.hardware_fix))
  /\ (ResolutionEngine.electrical_words = ["wire"; "voltage"; "shock"; "electric"]
      /\ ResolutionEngine.cosmetic_words = ["scratch"; "paint"; "dent"; "cosmetic"]
      /\ ResolutionEngine.hardware_words = ["missing"; "screw"; "bolt"; "part"]
      /\ ResolutionEngine.software_words = ["software"; "crash"; "bug"; "boot"]
      /\ ResolutionEngine.electrical_fix =
           "Isolate power supply immediately. Replace damaged wiring, perform continuity testing, and verify against safety protocol IEEE-1584."
      /\ ResolutionEngine.cosmetic_fix =
           "Route to touch-up station. Buff affected area, reapply surface coating, and verify thickness under QA lighting."
      /\ ResolutionEngine.hardware_fix =
           "Perform line-stop. Replenish hardware bins, install missing components, and recalibrate automated dispensers."
      /\ ResolutionEngine.software_fix =
           "Extract error logs, flash firmware to the last known stable version, and reboot system in diagnostic mode."
      /\ ResolutionEngine.escalation_fix =
           "Halt operation immediately. Escalate to Senior Engineering for a 5-Whys Root Cause Analysis (RCA) before resuming."
      /\ ResolutionEngine.tier1_fix =
           "Apply standard Tier-1 rework procedure and flag unit for secondary QA inspection.").
Proof.
  split; [|split; [|split; [|split; [|split]]]].
  - intros d d' Hdesc Hcls. unfold ResolutionEngine.suggest_fix.
    rewrite Hdesc.
    replace (Defect.get_impact_level d) with (Defect.get_impact_level d'); [reflexivity|].
    unfold Defect.get_impact_level, Defect.is_critical in *.
    destruct (Defect.cls d), (Defect.cls d'); congruence.
  - intros d desc. unfold ResolutionEngine.suggest_fix. fold desc.
    repeat split; intros; repeat match goal with H : any_in _ _ = _ |- _ => rewrite H; clear H end;
      try reflexivity.
    unfold Defect.get_impact_level, Defect.is_critical. now destruct (Defect.cls d).
  - intros d. unfold ResolutionEngine.suggest_fix.
    repeat split; intros Hdesc; rewrite Hdesc; try reflexivity;
      intros Himp; rewrite Himp; reflexivity.
  - intros d word. unfold ResolutionEngine.suggest_fix.
    repeat split; intros Hin Hdesc; rewrite Hdesc; simpl in Hin;
      destruct Hin as [<-|[<-|[<-|[<-|[]]]]]; reflexivity.
  - intros d. unfold ResolutionEngine.suggest_fix.
    repeat split; intros Hdesc; rewrite Hdesc; reflexivity.
  - repeat split.
Qed.

(** C5, on concrete objects: the two samples get the electrical and the
    cosmetic text; a critical defect described in capitals by a hardware
    word gets the hardware text, and one described by a software word
    next to a hardware word gets the hardware text as well. *)
Lemma suggest_fix_spec_witness :
  ResolutionEngine.suggest_fix sample_critical = ResolutionEngine.electrical_fix
  /\ ResolutionEngine.suggest_fix sample_minor = ResolutionEngine.cosmetic_fix
  /\ ResolutionEngine.suggest_fix sample_hardware =
       "Perform line-stop. Replenish hardware bins, install missing components, and recalibrate automated dispensers."
  /\ ResolutionEngine.suggest_fix sample_software_hardware =
       "Perform line-stop. Replenish hardware bins, install missing components, and recalibrate automated dispensers.".
Proof.
  destruct suggest_fix_spec as (_ & _ & Hex & Hword & Horder & Htext).
  destruct Htext as (_ & _ & _ & _ & _ & _ & Hhardware & _).
  split; [|split; [|split]].
  - apply (Hex sample_critical). reflexivity.
  - apply (Hex sample_minor). reflexivity.
  - rewrite <- Hhardware.
    destruct (Hword sample_hardware "BOLT") as (_ & _ & Hhw & _).
    apply Hhw; [simpl; tauto | reflexivity].
  - rewrite <- Hhardware.
    destruct (Horder sample_software_hardware) as (_ & _ & Hhw).
    apply Hhw. reflexivity.
Defined.


(** ** The monad and the store *)

Lemma run_bind {A B : Type} (m : M A) (f : A -> M B) (w : World) :
  (m ≫= f) w =
  match m w with
  | (Return a, w') => f a w'
  | (Raise e, w') => (Raise e, w')
  end.
Proof. reflexivity. Qed.

Lemma run_bind_return {A B : Type} (m : M A) (f : A -> M B) (w w' : World) (a : A) :
  m w = (Return a, w') -> (m ≫= f) w = f a w'.
Proof. intros H. now rewrite run_bind, H. Qed.

Lemma run_bind_raise {A B : Type} (m : M A) (f : A -> M B) (w w' : World) (e : exn) :
  m w = (Raise e, w') -> (m ≫= f) w = (Raise e, w').
Proof. intros H. now rewrite run_bind, H. Qed.

(** Run the first action of a sequence, given the equation for it. *)
Ltac bind_with H := rewrite (run_bind_return _ _ _ _ _ H); cbv beta.

Lemma get_defects_run (w : World) :
  DefectLog.get_defects w = (Return (log_database w), w).
Proof. reflexivity. Qed.

Lemma world_eta (w : World) :
  {| heap := heap w; log_database := log_database w;
     database_pkl := database_pkl w; events := events w |} = w.
Proof. now destruct w. Qed.

Lemma deref_some (l : nat) (d : Defect.t) (w : World) :
  heap w !! l = Some d -> deref l w = (Return d, w).
Proof. intros H. unfold deref. now rewrite H. Qed.

Lemma store_same (l : nat) (d : Defect.t) (w : World) :
  heap w !! l = Some d -> store l d w = (Return tt, w).
Proof.
  intros H. unfold store. rewrite insert_id by exact H. now rewrite world_eta.
Qed.

Lemma snapshot_cons (h : gmap nat Defect.t) (l : nat) (d : Defect.t) (ds : list nat) :
  h !! l = Some d -> snapshot h (l :: ds) = (l, d) :: snapshot h ds.
Proof. intros H. unfold snapshot. simpl. now rewrite H. Qed.

Lemma snapshot_app (h : gmap nat Defect.t) (ds ds' : list nat) :
  snapshot h (ds ++ ds') = (snapshot h ds ++ snapshot h ds')%list.
Proof. apply omap_app. Qed.

Lemma snapshot_fst (h : gmap nat Defect.t) (ds : list nat) :
  Forall (fun l => is_Some (h !! l)) ds -> (snapshot h ds).*1 = ds.
Proof.
  induction 1 as [|l ds [d Hd] _ IH]; [reflexivity|].
  rewrite (snapshot_cons _ _ d) by exact Hd. now rewrite fmap_cons, IH.
Qed.

Lemma snapshot_lookup (h : gmap nat Defect.t) (ds : list nat) (l : nat) (d : Defect.t) :
  In (l, d) (snapshot h ds) <-> In l ds /\ h !! l = Some d.
Proof.
  induction ds as [|l' ds IH]; [simpl; tauto|].
  unfold snapshot in *. simpl. destruct (h !! l') as [d'|] eqn:Hl'; simpl.
  - rewrite IH. split.
    + intros [H|[H1 H2]]; [inversion H; subst; auto | auto].
    + intros [[->|H1] H2]; [left; congruence | auto].
  - rewrite IH. split; [tauto|]. intros [[->|H1] H2]; [congruence | auto].
Qed.

Lemma id_matches_some (h : gmap nat Defect.t) (defect_id : string) (l : nat)
    (d : Defect.t) :
  h !! l = Some d ->
  id_matches h defect_id l = String.eqb (lower (Defect.id d)) (lower defect_id).
Proof. intros H. unfold id_matches. now rewrite H. Qed.

Lemma unresolved_in_some (h : gmap nat Defect.t) (l : nat) (d : Defect.t) :
  h !! l = Some d -> unresolved_in h l = negb (Defect.is_resolved d).
Proof. intros H. unfold unresolved_in. now rewrite H. Qed.

Lemma objects_closed (ds : list nat) (w : World) :
  Forall (fun l => is_Some (heap w !! l)) ds ->
  objects ds w = (Return (snapshot (heap w) ds), w).
Proof.
  induction 1 as [|l ds [d Hd] _ IH]; [reflexivity|].
  simpl objects. rewrite (run_bind_return _ _ _ _ _ (deref_some _ _ _ Hd)).
  rewrite (run_bind_return _ _ _ _ _ IH).
  now rewrite (snapshot_cons _ _ d) by exact Hd.
Qed.

Lemma find_in_closed (ds : list nat) (defect_id : string) (w : World) :
  Forall (fun l => is_Some (heap w !! l)) ds ->
  DefectLog.find_in ds defect_id w =
    (Return (List.find (id_matches (heap w) defect_id) ds), w).
Proof.
  induction 1 as [|l ds [d Hd] _ IH]; [reflexivity|].
  simpl DefectLog.find_in. rewrite (run_bind_return _ _ _ _ _ (deref_some _ _ _ Hd)).
  simpl List.find. rewrite (id_matches_some _ _ _ _ Hd).
  destruct (String.eqb _ _); [reflexivity | exact IH].
Qed.

Lemma unresolved_of_closed (ds : list nat) (w : World) :
  Forall (fun l => is_Some (heap w !! l)) ds ->
  DefectLog.unresolved_of ds w =
    (Return (List.filter (unresolved_in (heap w)) ds), w).
Proof.
  induction 1 as [|l ds [d Hd] _ IH]; [reflexivity|].
  simpl DefectLog.unresolved_of.
  rewrite (run_bind_return _ _ _ _ _ (deref_some _ _ _ Hd)).
  rewrite (run_bind_return _ _ _ _ _ IH).
  simpl List.filter. rewrite (unresolved_in_some _ _ _ Hd).
  now destruct (Defect.is_resolved d).
Qed.

(** What [force_save_data] does when every entry of the log is live. *)
Lemma force_save_data_closed (r : WriteResult) (w : World) :
  log_closed w ->
  TrackerController.force_save_data r w =
    (Return tt,
     {| heap := heap w;
        log_database := log_database w;
        database_pkl := file_after (snapshot (heap w) (log_database w)) r (database_pkl w);
        events := events w ++ save_events (snapshot (heap w) (log_database w)) r |}).
Proof.
  intros Hc. unfold TrackerController.force_save_data.
  bind_with (get_defects_run w). bind_with (objects_closed _ _ Hc).
  destruct r; unfold mbind, M_bind, emit, set_file, save_events, file_after; simpl;
    rewrite <- ?app_assoc; try reflexivity.
Qed.

(** ** The log *)

Lemma find_first {A : Type} (f : A -> bool) (l : list A) (x : A) :
  List.find f l = Some x ->
  f x = true /\ exists pre post,
    l = (pre ++ x :: post)%list /\ Forall (fun y => f y = false) pre.
Proof.
  induction l as [|y l IH]; [discriminate|]. simpl.
  destruct (f y) eqn:Hy.
  - intros [= ->]. split; [exact Hy|]. exists [], l. split; [reflexivity | constructor].
  - intros H. destruct (IH H) as (Hx & pre & post & -> & Hpre).
    split; [exact Hx|]. exists (y :: pre), post. split; [reflexivity|].
    now constructor.
Qed.

Lemma filter_all {A : Type} (f : A -> bool) (l : list A) :
  Forall (fun x => f x = true) l -> List.filter f l = l.
Proof.
  induction 1 as [|x l Hx _ IH]; [reflexivity|]. simpl. now rewrite Hx, IH.
Qed.

Lemma filter_shorter {A : Type} (f : A -> bool) (l : list A) :
  Exists (fun x => f x = false) l -> (length (List.filter f l) < length l)%nat.
Proof.
  pose proof (List.filter_length_le f) as Hle.
  induction 1 as [x l Hx | x l _ IH]; simpl.
  - rewrite Hx. specialize (Hle l). lia.
  - destruct (f x); simpl; lia.
Qed.

Lemma id_matches_lower (h : gmap nat Defect.t) (a b : string) (l : nat) :
  lower a = lower b -> id_matches h a l = id_matches h b l.
Proof. intros H. unfold id_matches. now rewrite H. Qed.

Lemma find_defect_closed (defect_id : string) (w : World) :
  log_closed w ->
  DefectLog.find_defect defect_id w =
    (Return (List.find (id_matches (heap w) defect_id) (log_database w)), w).
Proof.
  intros Hc. unfold DefectLog.find_defect. bind_with (get_defects_run w).
  now apply find_in_closed.
Qed.

(** ** The controller *)

Lemma report_defect_closed (w : World) (defect : nat) (d : Defect.t) (r : WriteResult) :
  log_closed w ->
  heap w !! defect = Some d ->
  TrackerController.report_defect defect r w =
    (if Defect.is_critical d then Raise (CriticalHaltException (halt_message d))
     else Return tt,
     {| heap := heap w;
        log_database := log_database w ++ [defect];
        database_pkl :=
          file_after (snapshot (heap w) (log_database w ++ [defect])) r (database_pkl w);
        events := events w ++ save_events (snapshot (heap w) (log_database w ++ [defect])) r
                  ++ [EvInfo ("New defect logged: " ++ Defect.id d)] |}).
Proof.
  intros Hc Hd.
  set (w1 := {| heap := heap w; log_database := log_database w ++ [defect];
                database_pkl := database_pkl w; events := events w |}).
  assert (Hc1 : log_closed w1).
  { apply Forall_app. split; [exact Hc|]. constructor; [now exists d | constructor]. }
  unfold TrackerController.report_defect.
  assert (Hadd : DefectLog.add_defect defect w = (Return tt, w1)) by reflexivity.
  bind_with Hadd.
  bind_with (force_save_data_closed r w1 Hc1).
  erewrite run_bind_return by (apply deref_some; exact Hd). cbv beta.
  unfold mbind, M_bind, emit, raise, mret, M_ret. simpl.
  rewrite <- app_assoc.
  destruct (Defect.is_critical d); reflexivity.
Qed.

(** C2: [report_defect] appends the defect to the log, then attempts the
    save of the log that already holds it, then writes the audit line, and
    only then, for a [CriticalDefect], raises [CriticalHaltException] with
    the description in its text; a [MinorDefect] returns normally.  In the
    state the call leaves, halt or not, the defect is in the log and a
    lookup by its identifier finds an entry (the defect itself when no
    earlier entry carries the same identifier). *)
Theorem report_defect_spec (w : World) (defect : nat) (d : Defect.t) (r : WriteResult) :
  log_closed w ->
  heap w !! defect = Some d ->
  let log' := (log_database w ++ [defect])%list in
  let p := snapshot (heap w) log' in
  let w' := {| heap := heap w;
               log_database := log';
               database_pkl := file_after p r (database_pkl w);
               events := events w ++ save_events p r
                         ++ [EvInfo ("New defect logged: " ++ Defect.id d)] |} in
  TrackerController.report_defect defect r w =
    (match Defect.cls d with
     | CriticalDefect _ =>
         Raise (CriticalHaltException
                  ("!!! SYSTEM HALT !!!" ++ nl ++ "CRITICAL DEFECT LOGGED: "
                   ++ Defect.description d))
     | MinorDefect _ => Return tt
     end, w')
  /\ p = (snapshot (heap w) (log_database w) ++ [(defect, d)])%list
  /\ In defect (log_database w')
  /\ (exists found d',
        DefectLog.find_defect (Defect.id d) w' = (Return (Some found), w')
        /\ heap w' !! found = Some d'
        /\ lower (Defect.id d') = lower (Defect.id d))
  /\ (List.find (id_matches (heap w) (Defect.id d)) (log_database w) = None ->
      DefectLog.find_defect (Defect.id d) w' = (Return (Some defect), w')).
Proof.
  intros Hc Hd log' p w'.
  assert (Hc' : Forall (fun l => is_Some (heap w !! l)) log').
  { apply Forall_app. split; [exact Hc|]. constructor; [now exists d | constructor]. }
  assert (Hmatch : id_matches (heap w) (Defect.id d) defect = true).
  { rewrite (id_matches_some _ _ _ _ Hd). apply String.eqb_refl. }
  assert (Hfind : DefectLog.find_defect (Defect.id d) w' =
                    (Return (List.find (id_matches (heap w) (Defect.id d)) log'), w'))
    by (apply (find_defect_closed (Defect.id d) w'); exact Hc').
  split; [|split; [|split; [|split]]].
  - rewrite (report_defect_closed w defect d r Hc Hd).
    unfold Defect.is_critical, halt_message. now destruct (Defect.cls d).
  - unfold p, log'. rewrite snapshot_app. f_equal.
    now rewrite (snapshot_cons _ _ d) by exact Hd.
  - simpl. apply in_or_app. right. now left.
  - rewrite Hfind. simpl heap.
    destruct (List.find (id_matches (heap w) (Defect.id d)) log') as [found|] eqn:Hf.
    + apply List.find_some in Hf as [Hin Hm].
      unfold id_matches in Hm. destruct (heap w !! found) as [d'|] eqn:Hd'; [|discriminate].
      exists found, d'. split; [reflexivity|]. split; [exact Hd'|].
      now apply String.eqb_eq.
    + exfalso. rewrite (List.find_none _ _ Hf defect) in Hmatch; [discriminate|].
      apply in_or_app. right. now left.
  - intros Hnone. rewrite Hfind. unfold log'. do 2 f_equal.
    clear -Hnone Hmatch. induction (log_database w) as [|l ds IH]; simpl in *.
    + now rewrite Hmatch.
    + destruct (id_matches (heap w) (Defect.id d) l); [discriminate | now apply IH].
Qed.

(** C2, on two concrete runs: reporting the critical sample raises the
    halt after the log and the file have received it, and a lookup
    afterwards returns it; reporting the minor sample returns normally,
    with the log and the file updated in the same way. *)
Lemma report_defect_spec_witness :
  (exists w',
     TrackerController.report_defect 0 WriteOk world_unreported =
       (Raise (CriticalHaltException
                 ("!!! SYSTEM HALT !!!" ++ nl
                  ++ "CRITICAL DEFECT LOGGED: Exposed wire causing shock hazard")), w')
     /\ log_database w' = [0%nat]
     /\ database_pkl w' = Pickled [(0%nat, sample_critical)]
     /\ DefectLog.find_defect "d-002" w' = (Return (Some 0%nat), w'))
  /\ (exists w',
        TrackerController.report_defect 0 WriteOk world_unreported_minor = (Return tt, w')
        /\ log_database w' = [0%nat]
        /\ database_pkl w' = Pickled [(0%nat, sample_minor)]
        /\ DefectLog.find_defect "d-001" w' = (Return (Some 0%nat), w')).
Proof.
  split.
  - assert (Hc : log_closed world_unreported) by constructor.
    assert (Hd : heap world_unreported !! 0%nat = Some sample_critical) by reflexivity.
    destruct (report_defect_spec world_unreported 0 sample_critical WriteOk Hc Hd)
      as (Hrun & _ & _ & _ & Hfind).
    eexists. split; [exact Hrun|]. split; [reflexivity|]. split; [reflexivity|].
    rewrite <- (Hfind eq_refl). reflexivity.
  - assert (Hc : log_closed world_unreported_minor) by constructor.
    assert (Hd : heap world_unreported_minor !! 0%nat = Some sample_minor) by reflexivity.
    destruct (report_defect_spec world_unreported_minor 0 sample_minor WriteOk Hc Hd)
      as (Hrun & _ & _ & _ & Hfind).
    eexists. split; [exact Hrun|]. split; [reflexivity|]. split; [reflexivity|].
    rewrite <- (Hfind eq_refl). reflexivity.
Defined.

Lemma remove_resolved_closed (w : World) :
  log_closed w ->
  DefectLog.remove_resolved_defects w =
    (Return tt,
     {| heap := heap w;
        log_database := List.filter (unresolved_in (heap w)) (log_database w);
        database_pkl := database_pkl w;
        events := events w |}).
Proof.
  intros Hc. unfold DefectLog.remove_resolved_defects. bind_with (get_defects_run w).
  bind_with (unresolved_of_closed _ _ Hc). reflexivity.
Qed.

Lemma closed_filter (h : gmap nat Defect.t) (f : nat -> bool) (ds : list nat) :
  Forall (fun l => is_Some (h !! l)) ds ->
  Forall (fun l => is_Some (h !! l)) (List.filter f ds).
Proof.
  rewrite !List.Forall_forall. intros H l Hl. apply H.
  now apply List.filter_In in Hl.
Qed.

Lemma clear_nothing (w : World) (r : WriteResult) :
  log_closed w ->
  Forall (fun l => unresolved_in (heap w) l = true) (log_database w) ->
  TrackerController.clear_resolved_defects r w =
    (Raise (RuntimeError "No resolved defects found to clear."), w).
Proof.
  intros Hc Hall. unfold TrackerController.clear_resolved_defects.
  bind_with (get_defects_run w). bind_with (remove_resolved_closed w Hc).
  erewrite run_bind_return by apply get_defects_run. cbv beta. cbn [log_database].
  rewrite (filter_all _ _ Hall), Nat.eqb_refl. simpl negb. cbv iota.
  unfold raise. now rewrite world_eta.
Qed.

Lemma clear_some (w : World) (r : WriteResult) :
  log_closed w ->
  Exists (fun l => unresolved_in (heap w) l = false) (log_database w) ->
  TrackerController.clear_resolved_defects r w =
    (Return tt,
     {| heap := heap w;
        log_database := List.filter (unresolved_in (heap w)) (log_database w);
        database_pkl :=
          file_after
            (snapshot (heap w) (List.filter (unresolved_in (heap w)) (log_database w)))
            r (database_pkl w);
        events :=
          events w ++
          save_events
            (snapshot (heap w) (List.filter (unresolved_in (heap w)) (log_database w))) r |}).
Proof.
  intros Hc Hex. unfold TrackerController.clear_resolved_defects.
  bind_with (get_defects_run w). bind_with (remove_resolved_closed w Hc).
  erewrite run_bind_return by apply get_defects_run. cbv beta. cbn [log_database].
  apply filter_shorter in Hex.
  destruct (Nat.eqb_spec (length (log_database w))
              (length (List.filter (unresolved_in (heap w)) (log_database w))))
    as [Heq|_]; [lia|].
  apply force_save_data_closed. apply closed_filter. exact Hc.
Qed.

(** C4: with no resolved defect in the log, [clear_resolved_defects]
    raises [RuntimeError] and leaves the whole state, file and history
    included, as it was; with at least one, it returns after replacing the
    log by its unresolved entries, in their original order, and attempting
    the save of that new log. *)
Theorem clear_resolved_defects_spec (w : World) (r : WriteResult) :
  log_closed w ->
  let kept := List.filter (unresolved_in (heap w)) (log_database w) in
  (Forall (fun l => unresolved_in (heap w) l = true) (log_database w) ->
     TrackerController.clear_resolved_defects r w =
       (Raise (RuntimeError "No resolved defects found to clear."), w))
  /\ (Exists (fun l => unresolved_in (heap w) l = false) (log_database w) ->
      TrackerController.clear_resolved_defects r w =
        (Return tt,
         {| heap := heap w;
            log_database := kept;
            database_pkl := file_after (snapshot (heap w) kept) r (database_pkl w);
            events := events w ++ save_events (snapshot (heap w) kept) r |}))
  /\ (forall l, In l kept <-> In l (log_database w) /\ unresolved_in (heap w) l = true)
  /\ sublist kept (log_database w).
Proof.
  intros Hc kept. split; [|split; [|split]].
  - now apply clear_nothing.
  - now apply clear_some.
  - intros l. apply List.filter_In.
  - unfold kept. clear. induction (log_database w) as [|l ds IH]; simpl.
    + constructor.
    + destruct (unresolved_in (heap w) l); now constructor.
Qed.

(** C4, on concrete logs: clearing the three-entry log drops its resolved
    entry, keeps the other two in order and saves them; clearing again
    raises and changes nothing. *)
Lemma clear_resolved_defects_spec_witness :
  exists w',
    TrackerController.clear_resolved_defects WriteOk world_three = (Return tt, w')
    /\ log_database w' = [0%nat; 2%nat]
    /\ database_pkl w' = Pickled [(0%nat, sample_critical); (2%nat, sample_minor)]
    /\ TrackerController.clear_resolved_defects WriteOk w' =
         (Raise (RuntimeError "No resolved defects found to clear."), w').
Proof.
  assert (Hc : log_closed world_three).
  { repeat constructor; eexists; reflexivity. }
  destruct (clear_resolved_defects_spec world_three WriteOk Hc) as (_ & Hsome & _ & _).
  eexists. split.
  - apply Hsome. apply Exists_cons_tl, Exists_cons_hd. reflexivity.
  - split; [reflexivity|]. split; [reflexivity|].
    match goal with |- _ ?w' = _ =>
      apply (clear_resolved_defects_spec w' WriteOk)
    end.
    + repeat constructor; eexists; reflexivity.
    + repeat constructor.
Defined.

Lemma resolve_at_resolved (l : nat) (d : Defect.t) (resolver_name details : string)
    (now : Z) (w : World) :
  heap w !! l = Some d ->
  Defect.is_resolved d = true ->
  resolve_at l resolver_name details now w =
    (Raise (DefectAlreadyResolvedException "Defect already resolved."), w).
Proof.
  intros Hd Hres. unfold resolve_at. bind_with (deref_some _ _ _ Hd).
  unfold Defect.resolve. rewrite Hres.
  now bind_with (store_same _ _ _ Hd).
Qed.

Lemma resolve_at_unresolved (l : nat) (d : Defect.t) (resolver_name details : string)
    (now : Z) (w : World) :
  heap w !! l = Some d ->
  Defect.is_resolved d = false ->
  resolve_at l resolver_name details now w =
    (Return tt,
     {| heap := <[l := (Defect.resolve resolver_name details now d).2]> (heap w);
        log_database := log_database w;
        database_pkl := database_pkl w;
        events := events w |}).
Proof.
  intros Hd Hres. unfold resolve_at. bind_with (deref_some _ _ _ Hd).
  unfold Defect.resolve. rewrite Hres. reflexivity.
Qed.

Lemma closed_insert (h : gmap nat Defect.t) (l : nat) (d : Defect.t) (ds : list nat) :
  Forall (fun l' => is_Some (h !! l')) ds ->
  Forall (fun l' => is_Some (<[l := d]> h !! l')) ds.
Proof.
  intros H. eapply Forall_impl; [exact H|]. intros l' Hl'. cbv beta.
  rewrite lookup_insert. destruct (decide (l = l')); [now eexists | exact Hl'].
Qed.

Lemma process_resolution_absent (w : World) (defect_id manager_name details : string)
    (now : Z) (r : WriteResult) :
  log_closed w ->
  List.find (id_matches (heap w) defect_id) (log_database w) = None ->
  TrackerController.process_resolution defect_id manager_name details now r w =
    (Raise (ValueError ("Error: Defect ID '" ++ defect_id ++ "' not found.")), w).
Proof.
  intros Hc Hn. unfold TrackerController.process_resolution.
  bind_with (find_defect_closed defect_id w Hc). now rewrite Hn.
Qed.

Lemma process_resolution_resolved (w : World) (defect_id manager_name details : string)
    (now : Z) (r : WriteResult) (l : nat) (d : Defect.t) :
  log_closed w ->
  List.find (id_matches (heap w) defect_id) (log_database w) = Some l ->
  heap w !! l = Some d ->
  Defect.is_resolved d = true ->
  TrackerController.process_resolution defect_id manager_name details now r w =
    (Raise (DefectAlreadyResolvedException "Defect already resolved."), w).
Proof.
  intros Hc Hl Hd Hres. unfold TrackerController.process_resolution.
  bind_with (find_defect_closed defect_id w Hc). rewrite Hl.
  now rewrite (run_bind_raise _ _ _ _ _ (resolve_at_resolved _ _ _ _ _ _ Hd Hres)).
Qed.

Lemma process_resolution_unresolved (w : World) (defect_id manager_name details : string)
    (now : Z) (r : WriteResult) (l : nat) (d : Defect.t) :
  log_closed w ->
  List.find (id_matches (heap w) defect_id) (log_database w) = Some l ->
  heap w !! l = Some d ->
  Defect.is_resolved d = false ->
  TrackerController.process_resolution defect_id manager_name details now r w =
    (Return tt,
     {| heap := <[l := (Defect.resolve manager_name details now d).2]> (heap w);
        log_database := log_database w;
        database_pkl :=
          file_after
            (snapshot (<[l := (Defect.resolve manager_name details now d).2]> (heap w))
               (log_database w)) r (database_pkl w);
        events :=
          events w ++
          save_events
            (snapshot (<[l := (Defect.resolve manager_name details now d).2]> (heap w))
               (log_database w)) r |}).
Proof.
  intros Hc Hl Hd Hres. unfold TrackerController.process_resolution.
  bind_with (find_defect_closed defect_id w Hc). rewrite Hl.
  bind_with (resolve_at_unresolved _ _ manager_name details now _ Hd Hres).
  rewrite force_save_data_closed; [reflexivity|].
  apply closed_insert. exact Hc.
Qed.

Lemma found_live (w : World) (defect_id : string) (l : nat) :
  List.find (id_matches (heap w) defect_id) (log_database w) = Some l ->
  exists d, heap w !! l = Some d /\ lower (Defect.id d) = lower defect_id.
Proof.
  intros Hl. destruct (find_first _ _ _ Hl) as (Hm & _).
  unfold id_matches in Hm. destruct (heap w !! l) as [d|]; [|discriminate].
  exists d. split; [reflexivity | now apply String.eqb_eq].
Qed.

(** C6: [process_resolution] looks the identifier up ignoring case and
    takes the first entry of the log that carries it.  With no such entry
    it raises [ValueError] and changes nothing; when the entry is already
    resolved, the [DefectAlreadyResolvedException] of [Defect.resolve]
    leaves the call as it is and nothing changes, so no save is attempted;
    when the entry is unresolved, the object is resolved in place and the
    save of the log is attempted.  Whenever the call raises, the state is
    the one it started from. *)
Theorem process_resolution_spec (w : World) (defect_id manager_name details : string)
    (now : Z) (r : WriteResult) :
  log_closed w ->
  let found := List.find (id_matches (heap w) defect_id) (log_database w) in
  DefectLog.find_defect defect_id w = (Return found, w)
  /\ (forall other_id, lower other_id = lower defect_id ->
        DefectLog.find_defect other_id w = (Return found, w))
  /\ (found = None ->
      (forall l d, In l (log_database w) -> heap w !! l = Some d ->
         lower (Defect.id d) <> lower defect_id)
      /\ TrackerController.process_resolution defect_id manager_name details now r w =
           (Raise (ValueError ("Error: Defect ID '" ++ defect_id ++ "' not found.")), w))
  /\ (forall l, found = Some l ->
      exists d pre post,
        heap w !! l = Some d
        /\ lower (Defect.id d) = lower defect_id
        /\ log_database w = (pre ++ l :: post)%list
        /\ Forall (fun l' => id_matches (heap w) defect_id l' = false) pre
        /\ (Defect.is_resolved d = true ->
            TrackerController.process_resolution defect_id manager_name details now r w =
              (Raise (DefectAlreadyResolvedException "Defect already resolved."), w))
        /\ (Defect.is_resolved d = false ->
            let h' := <[l := (Defect.resolve manager_name details now d).2]> (heap w) in
            let p := snapshot h' (log_database w) in
            TrackerController.process_resolution defect_id manager_name details now r w =
              (Return tt,
               {| heap := h';
                  log_database := log_database w;
                  database_pkl := file_after p r (database_pkl w);
                  events := events w ++ save_events p r |})))
  /\ (forall e w',
        TrackerController.process_resolution defect_id manager_name details now r w =
          (Raise e, w') ->
        w' = w).
Proof.
  intros Hc found.
  split; [now apply find_defect_closed|]. split; [|split; [|split]].
  - intros other_id Hlow. rewrite (find_defect_closed _ _ Hc). unfold found.
    do 2 f_equal. clear -Hlow.
    induction (log_database w) as [|l ds IH]; [reflexivity|]. simpl.
    now rewrite (id_matches_lower _ _ _ l Hlow), IH.
  - intros Hn. split; [|now apply process_resolution_absent].
    intros l d Hin Hd Heq.
    pose proof (List.find_none _ _ Hn l Hin) as Hm.
    rewrite (id_matches_some _ _ _ _ Hd) in Hm.
    apply String.eqb_neq in Hm. contradiction.
  - intros l Hl.
    destruct (find_first _ _ _ Hl) as (_ & pre & post & Hlog & Hpre).
    destruct (found_live _ _ _ Hl) as (d & Hd & Hid).
    exists d, pre, post. split; [exact Hd|].
    split; [exact Hid|]. split; [exact Hlog|]. split; [exact Hpre|]. split.
    + intros Hres. exact (process_resolution_resolved _ _ _ _ _ _ _ _ Hc Hl Hd Hres).
    + intros Hres. exact (process_resolution_unresolved _ _ _ _ _ _ _ _ Hc Hl Hd Hres).
  - intros e w' Hrun. destruct found as [l|] eqn:Hf.
    + destruct (found_live _ _ _ Hf) as (d & Hd & _).
      destruct (Defect.is_resolved d) eqn:Hres.
      * rewrite (process_resolution_resolved _ _ _ _ _ _ _ _ Hc Hf Hd Hres) in Hrun.
        now inversion Hrun.
      * rewrite (process_resolution_unresolved _ _ _ _ _ _ _ _ Hc Hf Hd Hres) in Hrun.
        discriminate Hrun.
    + rewrite (process_resolution_absent _ _ _ _ _ _ Hc Hf) in Hrun. now inversion Hrun.
Qed.

(** C6, on the three-entry log: the critical entry is found under a
    differently cased identifier, resolved and saved; the resolved entry
    is refused; an unknown identifier is reported; the refusals leave the
    state untouched. *)
Lemma process_resolution_spec_witness :
  (exists w',
     TrackerController.process_resolution "d-002" "manager" "done" 20 WriteOk world_three
       = (Return tt, w')
     /\ (Defect.is_resolved <$> heap w' !! 0%nat) = Some true
     /\ events w' <> events world_three)
  /\ TrackerController.process_resolution "D-003" "manager" "done" 20 WriteOk world_three
       = (Raise (DefectAlreadyResolvedException "Defect already resolved."), world_three)
  /\ TrackerController.process_resolution "D-404" "manager" "done" 20 WriteOk world_three
       = (Raise (ValueError "Error: Defect ID 'D-404' not found."), world_three).
Proof.
  assert (Hc : log_closed world_three).
  { repeat constructor; eexists; reflexivity. }
  split; [|split].
  - destruct (process_resolution_spec world_three "d-002" "manager" "done" 20 WriteOk Hc)
      as (_ & _ & _ & Hsome & _).
    destruct (Hsome 0%nat eq_refl) as (d & pre & post & Hd & _ & _ & _ & _ & Hun).
    injection Hd as <-.
    eexists. split; [apply Hun; reflexivity|]. split; [reflexivity | discriminate].
  - destruct (process_resolution_spec world_three "D-003" "manager" "done" 20 WriteOk Hc)
      as (_ & _ & _ & Hsome & _).
    destruct (Hsome 1%nat eq_refl) as (d & pre & post & Hd & _ & _ & _ & Hres & _).
    injection Hd as <-. apply Hres. reflexivity.
  - apply (process_resolution_spec world_three "D-404" "manager" "done" 20 WriteOk Hc).
    reflexivity.
Defined.

(** ** Sorting *)

Section SortFacts.
Context {A : Type} (ltb : A -> A -> bool).
Hypothesis ltb_asym : forall a b, ltb a b = true -> ltb b a = false.
Hypothesis ltb_cotrans : forall a b c, ltb a b = true -> ltb a c = true \/ ltb c b = true.

Lemma ltb_irrefl (a : A) : ltb a a = false.
Proof.
  destruct (ltb a a) eqn:H; [|reflexivity]. now rewrite (ltb_asym _ _ H) in H.
Qed.

Lemma tied_refl (a : A) : tied ltb a a = true.
Proof. unfold tied. now rewrite ltb_irrefl. Qed.

Lemma insert_sorted_perm (x : A) (l : list A) :
  Permutation (insert_sorted ltb x l) (x :: l).
Proof.
  induction l as [|y l IH]; simpl; [reflexivity|].
  destruct (ltb x y); [reflexivity|].
  rewrite IH. apply perm_swap.
Qed.

Lemma list_sort_perm_acc (l acc : list A) :
  Permutation (fold_left (fun acc x => insert_sorted ltb x acc) l acc) (acc ++ l).
Proof.
  revert acc. induction l as [|x l IH]; intros acc; simpl.
  - now rewrite app_nil_r.
  - rewrite IH, insert_sorted_perm. apply Permutation_middle.
Qed.

Lemma list_sort_perm (l : list A) : Permutation (list_sort ltb l) l.
Proof. apply (list_sort_perm_acc l []). Qed.

(** In an ordered list, everything behind an element larger than [x] is
    larger than [x]. *)
Lemma above_all (x y : A) (l : list A) :
  ltb x y = true ->
  Forall (fun z => ltb z y = false) l ->
  Forall (fun z => ltb x z = true) l.
Proof.
  intros Hxy Hl. eapply Forall_impl; [exact Hl|]. intros z Hz. cbv beta in *.
  destruct (ltb_cotrans _ _ z Hxy) as [H|H]; [exact H | congruence].
Qed.

Lemma insert_sorted_ordered (x : A) (l : list A) :
  ordered ltb l -> ordered ltb (insert_sorted ltb x l).
Proof.
  unfold ordered. induction 1 as [|y l Hl IH Hy]; simpl.
  - repeat constructor.
  - destruct (ltb x y) eqn:Hxy.
    + constructor; [now constructor|].
      constructor; [now apply ltb_asym|].
      eapply Forall_impl; [exact (above_all _ _ _ Hxy Hy)|].
      intros z Hz. now apply ltb_asym.
    + constructor; [exact IH|].
      rewrite insert_sorted_perm. now constructor.
Qed.

Lemma list_sort_ordered_acc (l acc : list A) :
  ordered ltb acc ->
  ordered ltb (fold_left (fun acc x => insert_sorted ltb x acc) l acc).
Proof.
  revert acc. induction l as [|x l IH]; intros acc Hacc; simpl; [exact Hacc|].
  apply IH, insert_sorted_ordered, Hacc.
Qed.

Lemma list_sort_ordered (l : list A) : ordered ltb (list_sort ltb l).
Proof. apply list_sort_ordered_acc. constructor. Qed.

Lemma filter_none (f : A -> bool) (l : list A) :
  Forall (fun z => f z = false) l -> List.filter f l = [].
Proof. induction 1 as [|z l Hz _ IH]; simpl; [reflexivity | now rewrite Hz]. Qed.

Lemma filter_head (f : A -> bool) (x : A) (l : list A) :
  List.filter f (x :: l) = if f x then x :: List.filter f l else List.filter f l.
Proof. reflexivity. Qed.

(** An element goes behind everything it is tied with. *)
Lemma insert_sorted_filter (a x : A) (l : list A) :
  ordered ltb l ->
  List.filter (tied ltb a) (insert_sorted ltb x l) =
    (List.filter (tied ltb a) l ++ (if tied ltb a x then [x] else []))%list.
Proof.
  unfold ordered. induction 1 as [|y l Hl IH Hy]; simpl insert_sorted.
  - simpl. now destruct (tied ltb a x).
  - destruct (ltb x y) eqn:Hxy.
    + rewrite (filter_head (tied ltb a) x).
      destruct (tied ltb a x) eqn:Hax; [|now rewrite app_nil_r].
      rewrite (filter_none (tied ltb a) (y :: l)); [reflexivity|].
      assert (Hall : Forall (fun z => ltb x z = true) (y :: l))
        by (constructor; [exact Hxy | exact (above_all _ _ _ Hxy Hy)]).
      eapply Forall_impl; [exact Hall|]. intros z Hxz. cbv beta in *.
      unfold tied in *. apply andb_true_iff in Hax as [Hax Hxa].
      apply negb_true_iff in Hax, Hxa.
      destruct (ltb_cotrans _ _ a Hxz) as [H|H]; [congruence|].
      now rewrite H.
    + rewrite !(filter_head (tied ltb a) y), IH. now destruct (tied ltb a y).
Qed.

Lemma list_sort_filter_acc (a : A) (l acc : list A) :
  ordered ltb acc ->
  List.filter (tied ltb a) (fold_left (fun acc x => insert_sorted ltb x acc) l acc) =
    (List.filter (tied ltb a) acc ++ List.filter (tied ltb a) l)%list.
Proof.
  revert acc. induction l as [|x l IH]; intros acc Hacc; simpl.
  - now rewrite app_nil_r.
  - rewrite IH by now apply insert_sorted_ordered.
    rewrite insert_sorted_filter by exact Hacc.
    rewrite <- app_assoc. now destruct (tied ltb a x).
Qed.

(** The model of [list.sort] is a stable sorting. *)
Lemma list_sort_stable (l : list A) : stable_sorting ltb l (list_sort ltb l).
Proof.
  split; [apply list_sort_ordered|].
  intros a. apply (list_sort_filter_acc a l []). constructor.
Qed.

Lemma filter_tied_in (a x : A) (l : list A) :
  In x (List.filter (tied ltb a) l) -> In x l.
Proof. intros H. now apply List.filter_In in H. Qed.

(** A list has only one stable sorting. *)
Lemma stable_sorting_unique (l l1 l2 : list A) :
  stable_sorting ltb l l1 -> stable_sorting ltb l l2 -> l1 = l2.
Proof.
  intros [Ho1 Hf1] [Ho2 Hf2].
  assert (Hf : forall a, List.filter (tied ltb a) l1 = List.filter (tied ltb a) l2)
    by (intros a; now rewrite Hf1, Hf2).
  clear Hf1 Hf2 l. revert l2 Ho2 Hf. unfold ordered in *.
  induction Ho1 as [|x l1 Ho1 IH Hx]; intros l2 Ho2 Hf.
  - destruct l2 as [|y l2]; [reflexivity|].
    specialize (Hf y). simpl in Hf. rewrite tied_refl in Hf. discriminate.
  - destruct Ho2 as [|y l2 Ho2 Hy].
    + specialize (Hf x). simpl in Hf. rewrite tied_refl in Hf. discriminate.
    + assert (Hxin : In x (y :: l2)).
      { apply (filter_tied_in x). rewrite <- Hf. simpl. rewrite tied_refl. now left. }
      assert (Hyin : In y (x :: l1)).
      { apply (filter_tied_in y). rewrite Hf. simpl. rewrite tied_refl. now left. }
      assert (Hxy : ltb x y = false).
      { destruct Hxin as [->|Hin]; [apply ltb_irrefl|].
        rewrite List.Forall_forall in Hy. now apply Hy. }
      assert (Hyx : ltb y x = false).
      { destruct Hyin as [->|Hin]; [apply ltb_irrefl|].
        rewrite List.Forall_forall in Hx. now apply Hx. }
      assert (Heq : x = y).
      { pose proof (Hf x) as H. simpl in H. rewrite tied_refl in H.
        unfold tied at 2 in H. rewrite Hxy, Hyx in H. simpl in H. congruence. }
      subst y. f_equal. apply IH; [exact Ho2|].
      intros a. specialize (Hf a). simpl in Hf.
      destruct (tied ltb a x); congruence.
Qed.
End SortFacts.

(** ** The triage order *)

Lemma lt_iff (a b : Defect.t) :
  Defect.lt a b = true <->
  rank a < rank b
  \/ (rank a = rank b
      /\ (Defect.get_priority_weight a > Defect.get_priority_weight b
          \/ (Defect.get_priority_weight a = Defect.get_priority_weight b
              /\ Defect.logged_at a > Defect.logged_at b))).
Proof.
  unfold Defect.lt, rank.
  destruct (Defect.is_resolved a), (Defect.is_resolved b); simpl;
    try (destruct (Z.eqb_spec (Defect.get_priority_weight b - Defect.get_priority_weight a) 0);
         simpl; rewrite ?Z.ltb_lt, ?Z.gtb_ltb, ?Z.ltb_lt);
    try lia; split; (discriminate || lia || reflexivity).
Qed.

Lemma lt_false_iff (a b : Defect.t) :
  Defect.lt a b = false <-> ~ (Defect.lt a b = true).
Proof. destruct (Defect.lt a b); split; congruence. Qed.

Lemma lt_asym (a b : Defect.t) : Defect.lt a b = true -> Defect.lt b a = false.
Proof. rewrite lt_false_iff, !lt_iff. lia. Qed.

Lemma lt_cotrans (a b c : Defect.t) :
  Defect.lt a b = true -> Defect.lt a c = true \/ Defect.lt c b = true.
Proof. rewrite !lt_iff. lia. Qed.

Lemma rank_eq (a b : Defect.t) :
  Defect.is_resolved a = Defect.is_resolved b -> rank a = rank b.
Proof. unfold rank. now intros ->. Qed.

Lemma rank_lt (a b : Defect.t) :
  Defect.is_resolved a = false -> Defect.is_resolved b = true -> rank a < rank b.
Proof. unfold rank. now intros -> ->. Qed.

Lemma entry_lt_asym (a b : nat * Defect.t) : entry_lt a b = true -> entry_lt b a = false.
Proof. apply lt_asym. Qed.

Lemma entry_lt_cotrans (a b c : nat * Defect.t) :
  entry_lt a b = true -> entry_lt a c = true \/ entry_lt c b = true.
Proof. apply lt_cotrans. Qed.

(** Whatever stable sort the built-in runs, on [__lt__] it returns the
    list of the model. *)
Lemma entries_sorting_unique (l l' : list (nat * Defect.t)) :
  stable_sorting entry_lt l l' -> l' = list_sort entry_lt l.
Proof.
  intros H. apply (stable_sorting_unique entry_lt entry_lt_asym l); [exact H|].
  apply list_sort_stable; [exact entry_lt_asym | exact entry_lt_cotrans].
Qed.

Lemma ordered_lookup {A : Type} (ltb : A -> A -> bool) (l : list A) (i j : nat) (x y : A) :
  ordered ltb l -> (i < j)%nat -> l !! i = Some x -> l !! j = Some y -> ltb y x = false.
Proof.
  unfold ordered. intros Hl. revert i j.
  induction Hl as [|z l Hl IH Hz]; intros i j Hij Hi Hj; [discriminate|].
  destruct j as [|j]; [lia|]. simpl in Hj.
  destruct i as [|i]; simpl in Hi.
  - injection Hi as ->. rewrite List.Forall_forall in Hz. apply Hz.
    apply list_elem_of_In. eapply list_elem_of_lookup_2. exact Hj.
  - apply (IH i j); [lia | exact Hi | exact Hj].
Qed.

Lemma get_all_defects_sorted_closed (w : World) :
  log_closed w ->
  TrackerController.get_all_defects_sorted w =
    (Return ((list_sort entry_lt (snapshot (heap w) (log_database w))).*1), w).
Proof.
  intros Hc. unfold TrackerController.get_all_defects_sorted.
  bind_with (get_defects_run w). bind_with (objects_closed _ _ Hc). reflexivity.
Qed.

(** C1: [__lt__] is the three-tier rule: an unresolved defect sorts
    strictly before a resolved one; with equal resolved status the higher
    weight sorts first; with equal status and weight the later [logged_at]
    sorts first; defects equal in all three are tied.
    [get_all_defects_sorted] leaves the state alone and returns the
    entries of the log rearranged so that no entry sorts strictly before
    an earlier one, tied entries keeping the order they have in the log. *)
Theorem triage_order_spec :
  (forall a b : Defect.t,
      (Defect.is_resolved a = false -> Defect.is_resolved b = true ->
         Defect.lt a b = true /\ Defect.lt b a = false)
      /\ (Defect.is_resolved a = Defect.is_resolved b ->
          Defect.get_priority_weight a > Defect.get_priority_weight b ->
          Defect.lt a b = true /\ Defect.lt b a = false)
      /\ (Defect.is_resolved a = Defect.is_resolved b ->
          Defect.get_priority_weight a = Defect.get_priority_weight b ->
          Defect.logged_at a > Defect.logged_at b ->
          Defect.lt a b = true /\ Defect.lt b a = false)
      /\ (Defect.is_resolved a = Defect.is_resolved b ->
          Defect.get_priority_weight a = Defect.get_priority_weight b ->
          Defect.logged_at a = Defect.logged_at b ->
          Defect.lt a b = false /\ Defect.lt b a = false))
  /\ (forall w : World,
        log_closed w ->
        exists (view : list nat) (entries : list (nat * Defect.t)),
          TrackerController.get_all_defects_sorted w = (Return view, w)
          /\ Permutation view (log_database w)
          /\ (forall i j la lb a b,
                (i < j)%nat -> view !! i = Some la -> view !! j = Some lb ->
                heap w !! la = Some a -> heap w !! lb = Some b ->
                Defect.lt b a = false)
          /\ view = entries.*1
          /\ stable_sorting entry_lt (snapshot (heap w) (log_database w)) entries).
Proof.
  split.
  - intros a b. split; [|split; [|split]].
    + intros Ha Hb. pose proof (rank_lt a b Ha Hb).
      rewrite lt_false_iff, !lt_iff. lia.
    + intros Hr Hw. pose proof (rank_eq a b Hr).
      rewrite lt_false_iff, !lt_iff. lia.
    + intros Hr Hw Ht. pose proof (rank_eq a b Hr).
      rewrite lt_false_iff, !lt_iff. lia.
    + intros Hr Hw Ht. pose proof (rank_eq a b Hr).
      rewrite !lt_false_iff, !lt_iff. lia.
  - intros w Hc.
    set (entries := list_sort entry_lt (snapshot (heap w) (log_database w))).
    pose proof (list_sort_perm entry_lt (snapshot (heap w) (log_database w))) as Hperm.
    pose proof (list_sort_stable entry_lt entry_lt_asym entry_lt_cotrans
                  (snapshot (heap w) (log_database w))) as Hstable.
    fold entries in Hperm, Hstable.
    exists (entries.*1), entries.
    split; [now apply get_all_defects_sorted_closed|].
    split; [|split; [|split; [reflexivity | exact Hstable]]].
    + rewrite <- (snapshot_fst (heap w) (log_database w) Hc).
      now apply Permutation_map.
    + intros i j la lb a b Hij Hi Hj Ha Hb.
      rewrite list_lookup_fmap in Hi, Hj.
      destruct (entries !! i) as [[la' a']|] eqn:Hei; [|discriminate].
      destruct (entries !! j) as [[lb' b']|] eqn:Hej; [|discriminate].
      simpl in Hi, Hj. injection Hi as ->. injection Hj as ->.
      assert (Ha' : heap w !! la = Some a').
      { apply (snapshot_lookup (heap w) (log_database w)).
        apply (Permutation_in _ Hperm), list_elem_of_In.
        eapply list_elem_of_lookup_2. exact Hei. }
      assert (Hb' : heap w !! lb = Some b').
      { apply (snapshot_lookup (heap w) (log_database w)).
        apply (Permutation_in _ Hperm), list_elem_of_In.
        eapply list_elem_of_lookup_2. exact Hej. }
      assert (a' = a) by congruence. assert (b' = b) by congruence. subst a' b'.
      apply (ordered_lookup entry_lt entries i j (la, a) (lb, b));
        [apply Hstable | exact Hij | exact Hei | exact Hej].
Qed.

(** C1, on the three-entry log: the unresolved critical defect comes
    first, the unresolved minor one second, the resolved one last. *)
Lemma triage_order_spec_witness :
  Defect.lt sample_critical sample_minor = true
  /\ Defect.lt sample_minor sample_resolved = true
  /\ exists view,
       TrackerController.get_all_defects_sorted world_three = (Return view, world_three)
       /\ view = [0%nat; 2%nat; 1%nat]
       /\ Permutation view (log_database world_three).
Proof.
  destruct triage_order_spec as [Htier Hview].
  split.
  { destruct (Htier sample_critical sample_minor) as (_ & Hweight & _).
    apply Hweight; reflexivity. }
  split.
  { destruct (Htier sample_minor sample_resolved) as (Hstatus & _).
    apply Hstatus; reflexivity. }
  assert (Hc : log_closed world_three).
  { repeat constructor; eexists; reflexivity. }
  destruct (Hview world_three Hc) as (view & entries & Hrun & Hperm & _).
  exists view. split; [exact Hrun|]. split; [|exact Hperm].
  assert (Hrun' : TrackerController.get_all_defects_sorted world_three =
                    (Return [0%nat; 2%nat; 1%nat], world_three)) by reflexivity.
  congruence.
Defined.

(** ** Reachable states *)

Lemma consistent_init (defect_id task_name description logged_by : string) (now : Z)
    (c : DefectClass) :
  consistent (Defect.init defect_id task_name description logged_by now c).
Proof. split; [discriminate | intros [t Ht]; discriminate]. Qed.

Lemma consistent_resolve (resolver_name details : string) (now : Z) (d : Defect.t) :
  consistent d -> consistent (Defect.resolve resolver_name details now d).2.
Proof.
  intros Hd. unfold Defect.resolve. destruct (Defect.is_resolved d); [exact Hd|].
  split; [intros _; now eexists | reflexivity].
Qed.

Lemma resolve_unresolved (resolver_name details : string) (now : Z) (d : Defect.t) :
  Defect.is_resolved d = false ->
  Defect.resolve resolver_name details now d =
    (Return tt, (Defect.resolve resolver_name details now d).2).
Proof. intros H. unfold Defect.resolve. now rewrite H. Qed.

Lemma consistent_snapshot (h : gmap nat Defect.t) (ds : list nat) :
  (forall l d, h !! l = Some d -> consistent d) ->
  Forall (fun e => consistent e.2) (snapshot h ds).
Proof.
  intros Hh. apply List.Forall_forall. intros [l d] Hin.
  apply snapshot_lookup in Hin as [_ Hd]. exact (Hh l d Hd).
Qed.

Lemma consistent_file_after (h : gmap nat Defect.t) (ds : list nat) (r : WriteResult)
    (old : File) (p : list (nat * Defect.t)) :
  (forall l d, h !! l = Some d -> consistent d) ->
  (forall q, old = Pickled q -> Forall (fun e => consistent e.2) q) ->
  file_after (snapshot h ds) r old = Pickled p ->
  Forall (fun e => consistent e.2) p.
Proof.
  intros Hh Hold. destruct r; simpl.
  - intros [= <-]. now apply consistent_snapshot.
  - apply Hold.
  - discriminate.
Qed.

Lemma consistent_insert (h : gmap nat Defect.t) (l : nat) (d : Defect.t) :
  (forall l' d', h !! l' = Some d' -> consistent d') ->
  consistent d ->
  forall l' d', <[l := d]> h !! l' = Some d' -> consistent d'.
Proof.
  intros Hh Hd l' d'. rewrite lookup_insert.
  destruct (decide (l = l')); [intros [= <-]; exact Hd | apply Hh].
Qed.

Lemma all_or_some {A : Type} (f : A -> bool) (l : list A) :
  Forall (fun x => f x = true) l \/ Exists (fun x => f x = false) l.
Proof.
  induction l as [|x l [IH|IH]].
  - left. constructor.
  - destruct (f x) eqn:Hx; [left; now constructor | right; now constructor].
  - right. now constructor.
Qed.

Lemma invariant_empty (f : File) (ev : list Event) :
  (forall p, f = Pickled p -> Forall (fun e => consistent e.2) p) ->
  invariant {| heap := ∅; log_database := []; database_pkl := f; events := ev |}.
Proof.
  intros Hf. split; cbn [heap log_database database_pkl].
  - unfold log_closed. cbn [log_database]. constructor.
  - intros l d H. rewrite lookup_empty in H. discriminate.
  - exact Hf.
Qed.

Lemma invariant_start : invariant empty_world.
Proof. apply invariant_empty. discriminate. Qed.

(** Starting again keeps the invariant: what is loaded was saved from a
    state that had it. *)
Lemma invariant_load_data (w : World) :
  invariant w -> invariant (TrackerController.load_data w).
Proof.
  intros [Hc Hh Hf]. unfold TrackerController.load_data.
  destruct (database_pkl w) as [|p|] eqn:Hfile;
    try (apply invariant_empty; discriminate).
  pose proof (Hf p eq_refl) as Hp.
  split; cbn [heap log_database database_pkl].
  - unfold log_closed. cbn [heap log_database].
    apply List.Forall_forall. intros l Hl. apply list_elem_of_In in Hl.
    destruct (list_to_map (M := gmap nat Defect.t) p !! l) as [d|] eqn:Hd; [now eexists|].
    apply not_elem_of_list_to_map_2 in Hd. contradiction.
  - intros l d Hd. apply elem_of_list_to_map_2 in Hd.
    rewrite List.Forall_forall in Hp. apply (Hp (l, d)). now apply list_elem_of_In.
  - exact Hf.
Qed.

(** A command keeps the invariant, keeps every object alive, and changes
    an object only by resolving it when it was unresolved. *)
Lemma step_effect (w w' : World) :
  invariant w ->
  step w w' ->
  invariant w'
  /\ forall l d, heap w !! l = Some d ->
       exists d', heap w' !! l = Some d' /\ object_step d d'.
Proof.
  intros [Hc Hh Hf] Hstep.
  assert (Hsame : forall l d, heap w !! l = Some d ->
            exists d', heap w !! l = Some d' /\ object_step d d')
    by (intros l d Hd; exists d; split; [exact Hd | now left]).
  destruct Hstep as [defect_type defect_id task desc user detail now w
                    | defect r w [d Hd]
                    | defect_id manager_name details now r w
                    | l resolver_name details now w [d Hd]
                    | r w].
  - (* the factory *)
    assert (Hnew : forall d0, consistent d0 ->
              invariant (alloc d0 w).2
              /\ forall l d, heap w !! l = Some d ->
                   exists d', heap (alloc d0 w).2 !! l = Some d' /\ object_step d d').
    { intros d0 Hd0. simpl. split; [split; simpl|].
      - apply closed_insert. exact Hc.
      - now apply consistent_insert.
      - exact Hf.
      - intros l d Hd. exists d. split; [|now left].
        rewrite lookup_insert_ne; [exact Hd|].
        intros <-. rewrite alloc_fresh in Hd. discriminate. }
    unfold DefectFactory.create_defect.
    destruct (String.eqb (lower defect_type) "critical"); apply Hnew, consistent_init.
  - (* report_defect *)
    rewrite (report_defect_closed w defect d r Hc Hd). simpl.
    split; [split; simpl|exact Hsame].
    + apply Forall_app. split; [exact Hc|]. constructor; [now exists d | constructor].
    + exact Hh.
    + intros p. now apply consistent_file_after.
  - (* process_resolution *)
    destruct (List.find (id_matches (heap w) defect_id) (log_database w)) as [l|] eqn:Hfind.
    + destruct (found_live _ _ _ Hfind) as (d & Hd & _).
      destruct (Defect.is_resolved d) eqn:Hres.
      * rewrite (process_resolution_resolved _ _ manager_name details now r _ _ Hc Hfind Hd Hres).
        split; [now split | exact Hsame].
      * rewrite (process_resolution_unresolved _ _ manager_name details now r _ _ Hc Hfind Hd Hres).
        simpl.
        assert (Hh' : forall l' d',
                  <[l := (Defect.resolve manager_name details now d).2]> (heap w) !! l' = Some d' ->
                  consistent d').
        { apply consistent_insert; [exact Hh|]. apply consistent_resolve. exact (Hh l d Hd). }
        split; [split; simpl|].
        -- apply closed_insert. exact Hc.
        -- exact Hh'.
        -- intros p. now apply consistent_file_after.
        -- intros l0 d0 Hd0. rewrite lookup_insert.
           destruct (decide (l = l0)) as [<-|Hne].
           ++ eexists. split; [reflexivity|]. right.
              assert (d0 = d) by congruence. subst d0.
              split; [exact Hres|]. exists manager_name, details, now.
              now apply resolve_unresolved.
           ++ exists d0. split; [exact Hd0 | now left].
    + rewrite (process_resolution_absent _ _ manager_name details now r Hc Hfind).
      split; [now split | exact Hsame].
  - (* Defect.resolve on an object *)
    destruct (Defect.is_resolved d) eqn:Hres.
    + rewrite (resolve_at_resolved _ _ resolver_name details now _ Hd Hres).
      split; [now split | exact Hsame].
    + rewrite (resolve_at_unresolved _ _ resolver_name details now _ Hd Hres). simpl.
      split; [split; simpl|].
      * apply closed_insert. exact Hc.
      * apply consistent_insert; [exact Hh|]. apply consistent_resolve. exact (Hh l d Hd).
      * exact Hf.
      * intros l0 d0 Hd0. rewrite lookup_insert.
        destruct (decide (l = l0)) as [<-|Hne].
        -- eexists. split; [reflexivity|]. right.
           assert (d0 = d) by congruence. subst d0.
           split; [exact Hres|]. exists resolver_name, details, now.
           now apply resolve_unresolved.
        -- exists d0. split; [exact Hd0 | now left].
  - (* clear_resolved_defects *)
    destruct (all_or_some (unresolved_in (heap w)) (log_database w)) as [Hall|Hex].
    + rewrite (clear_nothing w r Hc Hall). split; [now split | exact Hsame].
    + rewrite (clear_some w r Hc Hex). simpl. split; [split; simpl|exact Hsame].
      * apply closed_filter. exact Hc.
      * exact Hh.
      * intros p. now apply consistent_file_after.
Qed.

Lemma invariant_reachable (w : World) : reachable w -> invariant w.
Proof.
  induction 1 as [|w w' _ IH Hstep|w _ IH].
  - exact invariant_start.
  - exact (proj1 (step_effect w w' IH Hstep)).
  - now apply invariant_load_data.
Qed.

(** In no reachable state does the log hold a reference to an object the
    store does not have. *)
Lemma log_closed_reachable (w : World) : reachable w -> log_closed w.
Proof. intros H. apply invariant_reachable in H. apply H. Qed.

Lemma object_step_resolved (d d' : Defect.t) :
  object_step d d' -> Defect.is_resolved d = true -> d' = d.
Proof. intros [H|[H _]] Hres; [exact H | congruence]. Qed.

(** Once resolved, an object stays exactly as it is through any number of
    commands. *)
Lemma resolved_fixed (w w' : World) (l : nat) (d : Defect.t) :
  invariant w ->
  rtc step w w' ->
  heap w !! l = Some d ->
  Defect.is_resolved d = true ->
  heap w' !! l = Some d.
Proof.
  intros Hinv Hsteps. revert Hinv.
  induction Hsteps as [w|w w1 w' Hstep _ IH]; intros Hinv Hd Hres; [exact Hd|].
  destruct (step_effect w w1 Hinv Hstep) as [Hinv1 Hobj].
  destruct (Hobj l d Hd) as (d1 & Hd1 & Hstep1).
  apply object_step_resolved in Hstep1; [subst d1 | exact Hres].
  now apply IH.
Qed.

(** C7: in every state reachable by building, reporting, resolving and
    clearing defects (restarts included), each object has [resolved_at]
    set exactly when [is_resolved] is true.  A command leaves an object
    as it is or resolves it from the unresolved state; a resolved object
    is never changed again by any sequence of commands, and resolving it
    once more raises [DefectAlreadyResolvedException] without changing the
    state. *)
Theorem resolved_once (w : World) :
  reachable w ->
  (forall l d, heap w !! l = Some d ->
     (Defect.is_resolved d = true <-> is_Some (Defect.resolved_at d)))
  /\ (forall w', step w w' ->
        forall l d, heap w !! l = Some d ->
          exists d', heap w' !! l = Some d'
            /\ (d' = d
                \/ (Defect.is_resolved d = false
                    /\ Defect.is_resolved d' = true
                    /\ exists resolver_name details now,
                         Defect.resolve resolver_name details now d = (Return tt, d'))))
  /\ (forall w', rtc step w w' ->
        forall l d, heap w !! l = Some d -> Defect.is_resolved d = true ->
          heap w' !! l = Some d)
  /\ (forall l d resolver_name details now,
        heap w !! l = Some d -> Defect.is_resolved d = true ->
        resolve_at l resolver_name details now w =
          (Raise (DefectAlreadyResolvedException "Defect already resolved."), w)).
Proof.
  intros Hr. pose proof (invariant_reachable w Hr) as Hinv.
  split; [|split; [|split]].
  - intros l d Hd. exact (inv_heap w Hinv l d Hd).
  - intros w' Hstep l d Hd.
    destruct (step_effect w w' Hinv Hstep) as [_ Hobj].
    destruct (Hobj l d Hd) as (d' & Hd' & [Heq|(Hun & rn & dt & t & Hrun)]).
    + exists d'. split; [exact Hd' | now left].
    + exists d'. split; [exact Hd'|]. right. split; [exact Hun|].
      split; [|now exists rn, dt, t].
      unfold Defect.resolve in Hrun. rewrite Hun in Hrun. now inversion Hrun.
  - intros w' Hsteps l d Hd Hres. exact (resolved_fixed w w' l d Hinv Hsteps Hd Hres).
  - intros l d rn dt t Hd Hres. exact (resolve_at_resolved _ _ _ _ _ _ Hd Hres).
Qed.

(** C7, on a concrete run: after the factory has built the critical
    sample and the controller has reported it, the state is reachable and
    its one object is unresolved with no [resolved_at]; resolving it twice
    leaves it resolved once, stamped by the first call. *)
Lemma resolved_once_witness :
  reachable world_reported
  /\ (forall l d, heap world_reported !! l = Some d ->
        (Defect.is_resolved d = true <-> is_Some (Defect.resolved_at d)))
  /\ (Defect.resolved_at <$>
        heap (resolve_at 0 "other" "again" 30
                (resolve_at 0 "manager" "done" 20 world_reported).2).2 !! 0%nat)
     = Some (Some 20).
Proof.
  assert (Hr : reachable world_reported).
  { eapply reachable_step; [eapply reachable_step; [apply reachable_start|]|].
    - apply step_create.
    - apply step_report. eexists. reflexivity. }
  split; [exact Hr|]. split; [apply (resolved_once world_reported Hr)|].
  reflexivity.
Defined.

(** ** Counting the defects of a task *)

Lemma task_matches_some (h : gmap nat Defect.t) (task_name : string) (l : nat)
    (d : Defect.t) :
  h !! l = Some d ->
  task_matches h task_name l = String.eqb (lower (Defect.task_name d)) (lower task_name).
Proof. intros H. unfold task_matches. now rewrite H. Qed.

Lemma count_in_closed (ds : list nat) (task_name : string) (w : World) :
  Forall (fun l => is_Some (heap w !! l)) ds ->
  TrackerController.count_in ds task_name w =
    (Return (length (List.filter (task_matches (heap w) task_name) ds)), w).
Proof.
  induction 1 as [|l ds [d Hd] _ IH]; [reflexivity|].
  simpl TrackerController.count_in. bind_with (deref_some _ _ _ Hd). bind_with IH.
  simpl List.filter. rewrite (task_matches_some _ _ _ _ Hd).
  now destruct (String.eqb _ _).
Qed.

Lemma count_closed (task_name : string) (w : World) :
  log_closed w ->
  TrackerController.count_defects_for_task task_name w =
    (Return (length (List.filter (task_matches (heap w) task_name) (log_database w))), w).
Proof.
  intros Hc. unfold TrackerController.count_defects_for_task.
  bind_with (get_defects_run w). now apply count_in_closed.
Qed.

Lemma filter_ext_in {A : Type} (f g : A -> bool) (l : list A) :
  (forall x, In x l -> f x = g x) -> List.filter f l = List.filter g l.
Proof.
  induction l as [|x l IH]; intros H; [reflexivity|]. simpl.
  rewrite (H x) by now left. rewrite IH; [reflexivity|].
  intros y Hy. apply H. now right.
Qed.

Lemma filter_split_length {A : Type} (f g : A -> bool) (l : list A) :
  length (List.filter f l) =
    (length (List.filter f (List.filter g l))
     + length (List.filter f (List.filter (fun x => negb (g x)) l)))%nat.
Proof.
  induction l as [|x l IH]; [reflexivity|]. simpl.
  destruct (g x), (f x) eqn:Hf; simpl; rewrite ?Hf; simpl; lia.
Qed.

Lemma filter_empty_iff {A : Type} (f : A -> bool) (l : list A) :
  length (List.filter f l) = 0%nat <-> forall x, In x l -> f x = false.
Proof.
  induction l as [|x l IH]; simpl; [tauto|].
  destruct (f x) eqn:Hx; simpl.
  - split; [discriminate|]. intros H. rewrite (H x) in Hx by now left. discriminate.
  - rewrite IH. split.
    + intros H y [<-|Hy]; [exact Hx | now apply H].
    + intros H y Hy. apply H. now right.
Qed.

(** X1: [count_defects_for_task] returns, without changing the state, the
    number of log entries whose task name equals the argument once both
    are lower-cased; resolved and unresolved entries count alike, two
    arguments that differ in case only give the same number, and the
    number is 0 exactly when no entry carries the task. *)
Theorem count_defects_for_task_spec (w : World) (task_name : string) :
  log_closed w ->
  exists n,
    TrackerController.count_defects_for_task task_name w = (Return n, w)
    /\ n = length (List.filter (task_matches (heap w) task_name) (log_database w))
    /\ n = (length (List.filter (task_matches (heap w) task_name)
                      (List.filter (unresolved_in (heap w)) (log_database w)))
            + length (List.filter (task_matches (heap w) task_name)
                        (List.filter (fun l => negb (unresolved_in (heap w) l))
                           (log_database w))))%nat
    /\ (forall other, lower other = lower task_name ->
          TrackerController.count_defects_for_task other w = (Return n, w))
    /\ (n = 0%nat <->
        forall l d, In l (log_database w) -> heap w !! l = Some d ->
          lower (Defect.task_name d) <> lower task_name).
Proof.
  intros Hc. eexists. split; [now apply count_closed|]. split; [reflexivity|].
  split; [apply filter_split_length|]. split.
  - intros other Hlow. rewrite (count_closed other w Hc). do 3 f_equal.
    apply filter_ext_in. intros l _. unfold task_matches. now rewrite Hlow.
  - rewrite filter_empty_iff. split.
    + intros H l d Hin Hd Heq. specialize (H l Hin).
      rewrite (task_matches_some _ _ _ _ Hd) in H.
      apply String.eqb_neq in H. contradiction.
    + intros H l Hin. unfold log_closed in Hc. rewrite List.Forall_forall in Hc.
      destruct (Hc l Hin) as [d Hd]. rewrite (task_matches_some _ _ _ _ Hd).
      apply String.eqb_neq. exact (H l d Hin Hd).
Qed.

(** X1, on the three-entry log: one defect of the task "wiring", whatever
    the case of the query, and none of the task "Welding". *)
Lemma count_defects_for_task_spec_witness :
  TrackerController.count_defects_for_task "WIRING" world_three = (Return 1%nat, world_three)
  /\ TrackerController.count_defects_for_task "Welding" world_three
     = (Return 0%nat, world_three).
Proof.
  assert (Hc : log_closed world_three).
  { repeat constructor; eexists; reflexivity. }
  split.
  - destruct (count_defects_for_task_spec world_three "wiring" Hc)
      as (n & _ & Hn & _ & Hcase & _).
    rewrite (Hcase "WIRING" eq_refl). now rewrite Hn.
  - destruct (count_defects_for_task_spec world_three "Welding" Hc)
      as (n & Hrun & Hn & _).
    rewrite Hrun. now rewrite Hn.
Defined.

Lemma task_matches_insert (h : gmap nat Defect.t) (task_name : string) (l : nat)
    (d d' : Defect.t) :
  h !! l = Some d ->
  Defect.task_name d' = Defect.task_name d ->
  forall l', task_matches (<[l := d']> h) task_name l' = task_matches h task_name l'.
Proof.
  intros Hd Ht l'. unfold task_matches. rewrite lookup_insert.
  destruct (decide (l = l')) as [<-|_]; [|reflexivity]. now rewrite Hd, Ht.
Qed.

Lemma resolve_task_name (resolver_name details : string) (now : Z) (d : Defect.t) :
  Defect.task_name (Defect.resolve resolver_name details now d).2 = Defect.task_name d.
Proof. unfold Defect.resolve. now destruct (Defect.is_resolved d). Qed.

(** X2: reporting a defect raises the count of its own task by exactly
    one and leaves the count of every other task as it was, halt or no
    halt and whether or not the save succeeds. *)
Theorem count_after_report (w : World) (defect : nat) (d : Defect.t) (r : WriteResult)
    (task_name : string) :
  log_closed w ->
  heap w !! defect = Some d ->
  exists n,
    TrackerController.count_defects_for_task task_name w = (Return n, w)
    /\ TrackerController.count_defects_for_task task_name
         (TrackerController.report_defect defect r w).2
       = (Return (if String.eqb (lower (Defect.task_name d)) (lower task_name)
                  then S n else n),
          (TrackerController.report_defect defect r w).2).
Proof.
  intros Hc Hd. eexists. split; [now apply count_closed|].
  rewrite (report_defect_closed w defect d r Hc Hd). cbn [snd].
  rewrite count_closed.
  - cbn [heap log_database]. do 2 f_equal.
    rewrite List.filter_app, length_app. simpl List.filter.
    rewrite (task_matches_some _ _ _ _ Hd).
    destruct (String.eqb _ _); simpl; lia.
  - unfold log_closed. cbn [heap log_database].
    apply Forall_app. split; [exact Hc|]. constructor; [now exists d | constructor].
Qed.

(** X2, on a concrete report: the critical sample adds one to "Wiring". *)
Lemma count_after_report_witness :
  TrackerController.count_defects_for_task "wiring" world_unreported
    = (Return 0%nat, world_unreported)
  /\ TrackerController.count_defects_for_task "wiring"
       (TrackerController.report_defect 0 WriteOk world_unreported).2
     = (Return 1%nat, (TrackerController.report_defect 0 WriteOk world_unreported).2).
Proof.
  assert (Hc : log_closed world_unreported) by constructor.
  assert (Hd : heap world_unreported !! 0%nat = Some sample_critical) by reflexivity.
  destruct (count_after_report world_unreported 0 sample_critical WriteOk "wiring" Hc Hd)
    as (n & Hbefore & Hafter).
  assert (Hn : n = 0%nat).
  { assert (H0 : TrackerController.count_defects_for_task "wiring" world_unreported
                 = (Return 0%nat, world_unreported)) by reflexivity.
    congruence. }
  subst n. split; [exact Hbefore | exact Hafter].
Defined.

(** X3: [process_resolution] never changes the count of any task,
    whatever its outcome: a defect counts the same before and after it is
    resolved. *)
Theorem count_after_resolution (w : World) (defect_id manager_name details : string)
    (now : Z) (r : WriteResult) (task_name : string) :
  log_closed w ->
  exists n,
    TrackerController.count_defects_for_task task_name w = (Return n, w)
    /\ TrackerController.count_defects_for_task task_name
         (TrackerController.process_resolution defect_id manager_name details now r w).2
       = (Return n,
          (TrackerController.process_resolution defect_id manager_name details now r w).2).
Proof.
  intros Hc. eexists. split; [now apply count_closed|].
  destruct (List.find (id_matches (heap w) defect_id) (log_database w)) as [l|] eqn:Hfind.
  - destruct (found_live _ _ _ Hfind) as (d & Hd & _).
    destruct (Defect.is_resolved d) eqn:Hres.
    + rewrite (process_resolution_resolved _ _ manager_name details now r _ _ Hc Hfind Hd Hres).
      now apply count_closed.
    + rewrite (process_resolution_unresolved _ _ manager_name details now r _ _ Hc Hfind Hd Hres).
      cbn [snd]. rewrite count_closed.
      * cbn [heap log_database]. do 3 f_equal. apply filter_ext_in. intros l' _.
        apply (task_matches_insert _ _ _ d); [exact Hd | apply resolve_task_name].
      * unfold log_closed. cbn [heap log_database]. now apply closed_insert.
  - rewrite (process_resolution_absent _ _ manager_name details now r Hc Hfind).
    now apply count_closed.
Qed.

(** X3, on the three-entry log: resolving the critical defect leaves one
    defect counted for "Wiring". *)
Lemma count_after_resolution_witness :
  exists w',
    w' = (TrackerController.process_resolution "D-002" "manager" "done" 20 WriteOk
            world_three).2
    /\ TrackerController.count_defects_for_task "Wiring" world_three
       = (Return 1%nat, world_three)
    /\ TrackerController.count_defects_for_task "Wiring" w' = (Return 1%nat, w').
Proof.
  assert (Hc : log_closed world_three).
  { repeat constructor; eexists; reflexivity. }
  destruct (count_after_resolution world_three "D-002" "manager" "done" 20 WriteOk
              "Wiring" Hc) as (n & Hbefore & Hafter).
  assert (Hn : n = 1%nat).
  { assert (H1 : TrackerController.count_defects_for_task "Wiring" world_three
                 = (Return 1%nat, world_three)) by reflexivity.
    congruence. }
  subst n. eexists. split; [reflexivity|]. split; [exact Hbefore | exact Hafter].
Defined.

(** ** Saving and loading *)

Lemma load_snapshot_in (h : gmap nat Defect.t) (ds : list nat) (l : nat) :
  Forall (fun l' => is_Some (h !! l')) ds ->
  In l ds ->
  list_to_map (M := gmap nat Defect.t) (snapshot h ds) !! l = h !! l.
Proof.
  induction 1 as [|l0 ds [d Hd] _ IH]; intros Hin; [destruct Hin|].
  rewrite (snapshot_cons _ _ d) by exact Hd.
  change (list_to_map ((l0, d) :: snapshot h ds))
    with (<[l0 := d]> (list_to_map (M := gmap nat Defect.t) (snapshot h ds))).
  rewrite lookup_insert. destruct (decide (l0 = l)) as [<-|Hne]; [now rewrite Hd|].
  destruct Hin as [Heq|Hin]; [contradiction | now apply IH].
Qed.

Lemma load_snapshot_out (h : gmap nat Defect.t) (ds : list nat) (l : nat) :
  ~ In l ds ->
  list_to_map (M := gmap nat Defect.t) (snapshot h ds) !! l = None.
Proof.
  intros Hout. apply not_elem_of_list_to_map_1. intros Hin.
  apply list_elem_of_In, List.in_map_iff in Hin as ([l' d] & Heq & Hin).
  simpl in Heq. subst l'. apply snapshot_lookup in Hin as [Hin _]. contradiction.
Qed.

Lemma snapshot_ext (h h' : gmap nat Defect.t) (ds : list nat) :
  (forall l, In l ds -> h' !! l = h !! l) -> snapshot h' ds = snapshot h ds.
Proof.
  induction ds as [|l ds IH]; intros H; [reflexivity|].
  change (snapshot h' (l :: ds))
    with (match pair l <$> h' !! l with
          | Some e => e :: snapshot h' ds
          | None => snapshot h' ds
          end).
  change (snapshot h (l :: ds))
    with (match pair l <$> h !! l with
          | Some e => e :: snapshot h ds
          | None => snapshot h ds
          end).
  rewrite (H l) by now left.
  rewrite IH; [reflexivity|]. intros l' Hl'. apply H. now right.
Qed.

(** X4: a log saved successfully and loaded at the next start is the log
    that was saved: the same entries in the same order, each with the
    attributes it had, shared objects still shared; objects that were not
    in the log are not there any more. *)
Theorem save_load_round_trip (w : World) :
  log_closed w ->
  let saved := (TrackerController.force_save_data WriteOk w).2 in
  let loaded := TrackerController.load_data saved in
  log_database loaded = log_database w
  /\ (forall l, In l (log_database w) -> heap loaded !! l = heap w !! l)
  /\ (forall l, ~ In l (log_database w) -> heap loaded !! l = None)
  /\ snapshot (heap loaded) (log_database loaded) = snapshot (heap w) (log_database w)
  /\ log_closed loaded.
Proof.
  intros Hc saved loaded.
  assert (Hl : loaded =
            {| heap := list_to_map (snapshot (heap w) (log_database w));
               log_database := (snapshot (heap w) (log_database w)).*1;
               database_pkl := Pickled (snapshot (heap w) (log_database w));
               events := events w ++ save_events (snapshot (heap w) (log_database w)) WriteOk |}).
  { unfold loaded, saved. now rewrite (force_save_data_closed WriteOk w Hc). }
  assert (Hlog : log_database loaded = log_database w).
  { rewrite Hl. cbn [log_database]. now apply snapshot_fst. }
  assert (Hin : forall l, In l (log_database w) -> heap loaded !! l = heap w !! l).
  { intros l Hin. rewrite Hl. cbn [heap]. now apply load_snapshot_in. }
  split; [exact Hlog|]. split; [exact Hin|]. split; [|split].
  - intros l Hout. rewrite Hl. cbn [heap]. now apply load_snapshot_out.
  - rewrite Hlog. now apply snapshot_ext.
  - unfold log_closed. rewrite Hlog. unfold log_closed in Hc.
    rewrite List.Forall_forall in *. intros l Hlin. rewrite (Hin l Hlin). now apply Hc.
Qed.

(** X4, on the three-entry log. *)
Lemma save_load_round_trip_witness :
  log_database
    (TrackerController.load_data (TrackerController.force_save_data WriteOk world_three).2)
  = [0%nat; 1%nat; 2%nat]
  /\ heap
       (TrackerController.load_data (TrackerController.force_save_data WriteOk world_three).2)
       !! 1%nat = Some sample_resolved.
Proof.
  assert (Hc : log_closed world_three).
  { repeat constructor; eexists; reflexivity. }
  destruct (save_load_round_trip world_three Hc) as (Hlog & Hheap & _).
  split; [exact Hlog|]. rewrite Hheap; [reflexivity|]. right. now left.
Defined.

(** X5: a report whose save fails is in the log but does not survive a
    restart.  When [open] fails the file is untouched and the next start
    loads what the start before the report would have loaded; when the
    dump fails half-way the file is unreadable and the next start has an
    empty log. *)
Theorem report_lost_on_failed_write (w : World) (defect : nat) (d : Defect.t) (e : string) :
  log_closed w ->
  heap w !! defect = Some d ->
  (In defect (log_database (TrackerController.report_defect defect (OpenFailed e) w).2)
   /\ log_database
        (TrackerController.load_data
           (TrackerController.report_defect defect (OpenFailed e) w).2)
      = log_database (TrackerController.load_data w)
   /\ heap
        (TrackerController.load_data
           (TrackerController.report_defect defect (OpenFailed e) w).2)
      = heap (TrackerController.load_data w))
  /\ (In defect (log_database (TrackerController.report_defect defect (DumpFailed e) w).2)
      /\ log_database
           (TrackerController.load_data
              (TrackerController.report_defect defect (DumpFailed e) w).2) = []
      /\ heap
           (TrackerController.load_data
              (TrackerController.report_defect defect (DumpFailed e) w).2) = ∅).
Proof.
  intros Hc Hd. rewrite !(report_defect_closed w defect d _ Hc Hd). cbn [snd].
  unfold TrackerController.load_data. cbn [database_pkl file_after log_database heap].
  split; (split; [apply in_or_app; right; now left|]).
  - destruct (database_pkl w); split; reflexivity.
  - split; reflexivity.
Qed.

(** X5, on a concrete report with no file yet. *)
Lemma report_lost_on_failed_write_witness :
  log_database (TrackerController.report_defect 0 (OpenFailed "disk full") world_unreported).2
    = [0%nat]
  /\ log_database
       (TrackerController.load_data
          (TrackerController.report_defect 0 (OpenFailed "disk full") world_unreported).2)
     = [].
Proof.
  assert (Hc : log_closed world_unreported) by constructor.
  assert (Hd : heap world_unreported !! 0%nat = Some sample_critical) by reflexivity.
  destruct (report_lost_on_failed_write world_unreported 0 sample_critical "disk full" Hc Hd)
    as ((_ & Hlog & _) & _).
  split; [reflexivity|]. rewrite Hlog. reflexivity.
Defined.

(** ** Duplicate identifiers and clearing *)

Lemma unresolved_in_live (h : gmap nat Defect.t) (l : nat) :
  unresolved_in h l = true ->
  exists d, h !! l = Some d /\ Defect.is_resolved d = false.
Proof.
  unfold unresolved_in. destruct (h !! l) as [d|]; [|discriminate].
  intros H. exists d. split; [reflexivity|]. now apply negb_true_iff.
Qed.

(** X6: identifiers are not unique, and the lookup stops at the first
    entry that carries one.  When that entry is resolved, resolving by
    the identifier is refused and changes nothing although a later,
    unresolved entry carries the same identifier; once the resolved
    entries have been cleared, the same request succeeds on that later
    entry. *)
Theorem duplicate_id_shadowed (w : World) (defect_id manager_name details : string)
    (now : Z) (r r' : WriteResult) (first later : nat) (d1 d2 : Defect.t) :
  log_closed w ->
  List.find (id_matches (heap w) defect_id) (log_database w) = Some first ->
  heap w !! first = Some d1 ->
  Defect.is_resolved d1 = true ->
  In later (log_database w) ->
  heap w !! later = Some d2 ->
  lower (Defect.id d2) = lower defect_id ->
  Defect.is_resolved d2 = false ->
  TrackerController.process_resolution defect_id manager_name details now r w =
    (Raise (DefectAlreadyResolvedException "Defect already resolved."), w)
  /\ exists cleared found d w',
       TrackerController.clear_resolved_defects r' w = (Return tt, cleared)
       /\ DefectLog.find_defect defect_id cleared = (Return (Some found), cleared)
       /\ heap cleared !! found = Some d
       /\ Defect.is_resolved d = false
       /\ TrackerController.process_resolution defect_id manager_name details now r cleared
          = (Return tt, w')
       /\ (Defect.is_resolved <$> heap w' !! found) = Some true.
Proof.
  intros Hc Hfind Hd1 Hres1 Hin Hd2 Hid Hres2.
  split; [exact (process_resolution_resolved _ _ _ _ _ _ _ _ Hc Hfind Hd1 Hres1)|].
  assert (Hex : Exists (fun l => unresolved_in (heap w) l = false) (log_database w)).
  { apply List.Exists_exists. exists first. split.
    - now apply List.find_some in Hfind.
    - rewrite (unresolved_in_some _ _ _ Hd1). now rewrite Hres1. }
  pose proof (clear_some w r' Hc Hex) as Hclear.
  set (cleared := {| heap := heap w;
                     log_database := List.filter (unresolved_in (heap w)) (log_database w);
                     database_pkl :=
                       file_after
                         (snapshot (heap w)
                            (List.filter (unresolved_in (heap w)) (log_database w)))
                         r' (database_pkl w);
                     events :=
                       events w ++
                       save_events
                         (snapshot (heap w)
                            (List.filter (unresolved_in (heap w)) (log_database w))) r' |})
    in *.
  assert (Hcc : log_closed cleared) by (apply closed_filter; exact Hc).
  destruct (List.find (id_matches (heap cleared) defect_id) (log_database cleared))
    as [found|] eqn:Hfound.
  - pose proof (List.find_some _ _ Hfound) as [Hfin _].
    apply List.filter_In in Hfin as [_ Hun].
    destruct (unresolved_in_live _ _ Hun) as (d & Hd & Hres).
    exists cleared, found, d. eexists.
    split; [exact Hclear|]. split.
    { rewrite (find_defect_closed defect_id cleared Hcc). now rewrite Hfound. }
    split; [exact Hd|]. split; [exact Hres|]. split.
    { exact (process_resolution_unresolved _ _ _ _ _ _ _ _ Hcc Hfound Hd Hres). }
    cbn [heap]. rewrite lookup_insert_eq. unfold Defect.resolve. now rewrite Hres.
  - exfalso. pose proof (List.find_none _ _ Hfound later) as Hno.
    cbn [heap log_database] in Hno.
    rewrite (id_matches_some _ _ _ _ Hd2), Hid, String.eqb_refl in Hno.
    assert (Hlater : In later (List.filter (unresolved_in (heap w)) (log_database w))).
    { apply List.filter_In. split; [exact Hin|].
      rewrite (unresolved_in_some _ _ _ Hd2). now rewrite Hres2. }
    specialize (Hno Hlater). discriminate.
Qed.

(** X6, on the log with two defects named D-003. *)
Lemma duplicate_id_shadowed_witness :
  TrackerController.process_resolution "D-003" "manager" "done" 30 WriteOk world_twins =
    (Raise (DefectAlreadyResolvedException "Defect already resolved."), world_twins)
  /\ exists cleared w',
       TrackerController.clear_resolved_defects WriteOk world_twins = (Return tt, cleared)
       /\ TrackerController.process_resolution "D-003" "manager" "done" 30 WriteOk cleared
          = (Return tt, w').
Proof.
  assert (Hc : log_closed world_twins).
  { repeat constructor; eexists; reflexivity. }
  destruct (duplicate_id_shadowed world_twins "D-003" "manager" "done" 30 WriteOk WriteOk
              0 1 sample_resolved sample_twin Hc eq_refl eq_refl eq_refl
              (or_intror (or_introl eq_refl)) eq_refl eq_refl eq_refl)
    as (Hrefused & cleared & found & d & w' & Hclear & _ & _ & _ & Hok & _).
  split; [exact Hrefused|]. exists cleared, w'. split; [exact Hclear | exact Hok].
Defined.

(** X7: after [clear_resolved_defects], whatever it answered, every entry
    left in the log is unresolved, and clearing once more raises
    [RuntimeError] and changes nothing. *)
Theorem clear_twice (w : World) (r r' : WriteResult) :
  log_closed w ->
  let cleared := (TrackerController.clear_resolved_defects r w).2 in
  (forall l, In l (log_database cleared) ->
     exists d, heap cleared !! l = Some d /\ Defect.is_resolved d = false)
  /\ TrackerController.clear_resolved_defects r' cleared =
       (Raise (RuntimeError "No resolved defects found to clear."), cleared).
Proof.
  intros Hc cleared.
  assert (H : log_closed cleared
              /\ Forall (fun l => unresolved_in (heap cleared) l = true)
                   (log_database cleared)).
  { unfold cleared.
    destruct (all_or_some (unresolved_in (heap w)) (log_database w)) as [Hall|Hex].
    - rewrite (clear_nothing w r Hc Hall). split; [exact Hc | exact Hall].
    - rewrite (clear_some w r Hc Hex). cbn [snd]. split.
      + apply closed_filter. exact Hc.
      + cbn [heap log_database]. apply List.Forall_forall. intros l Hl.
        now apply List.filter_In in Hl. }
  destruct H as [Hcc Hall]. split.
  - intros l Hl. rewrite List.Forall_forall in Hall.
    apply unresolved_in_live. now apply Hall.
  - now apply clear_nothing.
Qed.

(** X7, on the three-entry log. *)
Lemma clear_twice_witness :
  exists cleared,
    cleared = (TrackerController.clear_resolved_defects WriteOk world_three).2
    /\ log_database cleared = [0%nat; 2%nat]
    /\ TrackerController.clear_resolved_defects WriteOk cleared =
         (Raise (RuntimeError "No resolved defects found to clear."), cleared).
Proof.
  assert (Hc : log_closed world_three).
  { repeat constructor; eexists; reflexivity. }
  eexists. split; [reflexivity|]. split; [reflexivity|].
  apply (clear_twice world_three WriteOk WriteOk Hc).
Defined.

(** ** The top of the triage list *)

Lemma rank_range (d : Defect.t) :
  (Defect.is_resolved d = false /\ rank d = 0) \/ (Defect.is_resolved d = true /\ rank d = 1).
Proof. unfold rank. destruct (Defect.is_resolved d); auto. Qed.

Lemma weight_range (d : Defect.t) :
  (Defect.is_critical d = false /\ Defect.get_priority_weight d = 1)
  \/ (Defect.is_critical d = true /\ Defect.get_priority_weight d = 10).
Proof.
  unfold Defect.is_critical, Defect.get_priority_weight. destruct (Defect.cls d); auto.
Qed.

(** X8: for a non-empty log the sorted list starts with an entry of the
    log that no entry sorts strictly before.  So when some defect is
    unresolved the first row is an unresolved defect, and when some
    unresolved defect is critical the first row is an unresolved critical
    defect. *)
Theorem triage_top (w : World) :
  log_closed w ->
  log_database w <> [] ->
  exists top rest dt,
    TrackerController.get_all_defects_sorted w = (Return (top :: rest), w)
    /\ In top (log_database w)
    /\ heap w !! top = Some dt
    /\ (forall l d, In l (log_database w) -> heap w !! l = Some d ->
          Defect.lt d dt = false)
    /\ ((exists l d, In l (log_database w) /\ heap w !! l = Some d
                     /\ Defect.is_resolved d = false) ->
        Defect.is_resolved dt = false)
    /\ ((exists l d, In l (log_database w) /\ heap w !! l = Some d
                     /\ Defect.is_resolved d = false /\ Defect.is_critical d = true) ->
        Defect.is_resolved dt = false /\ Defect.is_critical dt = true).
Proof.
  intros Hc Hne.
  pose proof (list_sort_perm entry_lt (snapshot (heap w) (log_database w))) as Hperm.
  pose proof (list_sort_ordered entry_lt entry_lt_asym entry_lt_cotrans
                (snapshot (heap w) (log_database w))) as Hord.
  rewrite (get_all_defects_sorted_closed w Hc).
  destruct (list_sort entry_lt (snapshot (heap w) (log_database w)))
    as [|[top dt] erest] eqn:Hsort.
  - exfalso. apply Permutation_nil in Hperm.
    destruct (log_database w) as [|l ds] eqn:Hlog; [now apply Hne|].
    unfold log_closed in Hc. rewrite Hlog in Hc.
    apply List.Forall_inv in Hc as [d Hd].
    rewrite (snapshot_cons _ _ d) in Hperm by exact Hd. discriminate.
  - assert (Htop : In top (log_database w) /\ heap w !! top = Some dt).
    { apply (snapshot_lookup (heap w)). apply (Permutation_in _ Hperm). now left. }
    assert (Hmax : forall l d, In l (log_database w) -> heap w !! l = Some d ->
                     Defect.lt d dt = false).
    { intros l d Hin Hd.
      assert (He : In (l, d) ((top, dt) :: erest)).
      { apply (Permutation_in _ (Permutation_sym Hperm)).
        apply snapshot_lookup. now split. }
      destruct He as [[= <- <-]|He].
      - destruct (Defect.lt dt dt) eqn:Hlt; [|reflexivity].
        now rewrite (lt_asym _ _ Hlt) in Hlt.
      - unfold ordered in Hord. apply StronglySorted_inv in Hord as [_ Hall].
        rewrite List.Forall_forall in Hall. exact (Hall (l, d) He). }
    exists top, (erest.*1), dt.
    split; [reflexivity|]. split; [apply Htop|]. split; [apply Htop|].
    split; [exact Hmax|]. split.
    + intros (l & d & Hin & Hd & Hres). specialize (Hmax l d Hin Hd).
      apply lt_false_iff in Hmax. rewrite lt_iff in Hmax.
      destruct (rank_range d) as [[_ Hrd]|[Hrd _]]; [|congruence].
      destruct (rank_range dt) as [[Hdt _]|[_ Hrdt]]; [exact Hdt | lia].
    + intros (l & d & Hin & Hd & Hres & Hcrit). specialize (Hmax l d Hin Hd).
      apply lt_false_iff in Hmax. rewrite lt_iff in Hmax.
      destruct (rank_range d) as [[_ Hrd]|[Hrd _]]; [|congruence].
      destruct (weight_range d) as [[Hwd _]|[_ Hwd]]; [congruence|].
      destruct (rank_range dt) as [[Hdt Hrdt]|[_ Hrdt]]; [|lia].
      split; [exact Hdt|].
      destruct (weight_range dt) as [[_ Hwdt]|[Hcdt _]]; [lia | exact Hcdt].
Qed.

(** X8, on the three-entry log: the unresolved critical defect is on
    top. *)
Lemma triage_top_witness :
  exists top rest dt,
    TrackerController.get_all_defects_sorted world_three = (Return (top :: rest), world_three)
    /\ heap world_three !! top = Some dt
    /\ Defect.is_resolved dt = false
    /\ Defect.is_critical dt = true.
Proof.
  assert (Hc : log_closed world_three).
  { repeat constructor; eexists; reflexivity. }
  assert (Hne : log_database world_three <> []) by discriminate.
  destruct (triage_top world_three Hc Hne)
    as (top & rest & dt & Hrun & _ & Hdt & _ & _ & Hcrit).
  exists top, rest, dt. split; [exact Hrun|]. split; [exact Hdt|].
  apply Hcrit. exists 0%nat, sample_critical.
  split; [now left|]. repeat split.
Defined.

(** ** What no command changes *)

Lemma same_identity_refl (d : Defect.t) : same_identity d d.
Proof. repeat split. Qed.

Lemma same_identity_trans (d d' d'' : Defect.t) :
  same_identity d d' -> same_identity d' d'' -> same_identity d d''.
Proof. unfold same_identity. intuition congruence. Qed.

Lemma object_step_identity (d d' : Defect.t) : object_step d d' -> same_identity d d'.
Proof.
  intros [->|(Hun & rn & dt & t & Hrun)]; [apply same_identity_refl|].
  unfold Defect.resolve in Hrun. rewrite Hun in Hrun. inversion Hrun. repeat split.
Qed.

(** X9: through any sequence of commands from a reachable state, an
    object stays in the store and keeps its identifier, task, description,
    reporter, logging time and class (with the attribute of that class):
    only its resolution can change. *)
Theorem identity_preserved (w w' : World) (l : nat) (d : Defect.t) :
  reachable w ->
  rtc step w w' ->
  heap w !! l = Some d ->
  exists d', heap w' !! l = Some d' /\ same_identity d d'.
Proof.
  intros Hr Hsteps. apply invariant_reachable in Hr. revert d Hr.
  induction Hsteps as [w|w w1 w' Hstep _ IH]; intros d Hinv Hd.
  - exists d. split; [exact Hd | apply same_identity_refl].
  - destruct (step_effect w w1 Hinv Hstep) as [Hinv1 Hobj].
    destruct (Hobj l d Hd) as (d1 & Hd1 & Hstep1).
    destruct (IH d1 Hinv1 Hd1) as (d' & Hd' & Hsame).
    exists d'. split; [exact Hd'|].
    exact (same_identity_trans _ _ _ (object_step_identity _ _ Hstep1) Hsame).
Qed.

(** X9, on a concrete run: the reported critical sample, resolved through
    the controller and then cleared from the log, is still the same
    critical defect D-002. *)
Lemma identity_preserved_witness :
  exists w' d',
    rtc step world_reported w'
    /\ log_database w' = []
    /\ heap w' !! 0%nat = Some d'
    /\ Defect.id d' = "D-002"
    /\ Defect.cls d' = CriticalDefect "N/A".
Proof.
  assert (Hr : reachable world_reported).
  { eapply reachable_step; [eapply reachable_step; [apply reachable_start|]|].
    - apply step_create.
    - apply step_report. eexists. reflexivity. }
  set (w1 := (TrackerController.process_resolution "d-002" "manager" "done" 20 WriteOk
                world_reported).2).
  set (w2 := (TrackerController.clear_resolved_defects WriteOk w1).2).
  assert (Hsteps : rtc step world_reported w2).
  { eapply rtc_l; [apply step_process_resolution|].
    eapply rtc_l; [apply step_clear|]. apply rtc_refl. }
  assert (Hd : heap world_reported !! 0%nat
               = Some (CriticalDefect_init "D-002" "Wiring"
                         "Exposed wire causing shock hazard" "worker" "N/A" 5))
    by reflexivity.
  destruct (identity_preserved world_reported w2 0 _ Hr Hsteps Hd)
    as (d' & Hd' & Hid & _ & _ & _ & _ & Hcls).
  exists w2, d'. split; [exact Hsteps|]. split; [reflexivity|].
  split; [exact Hd'|]. split; [exact Hid | exact Hcls].
Defined.

(** ** The web view *)

Lemma get_aging_consistent (now : Z) (d : Defect.t) :
  consistent d -> exists text, Defect.get_aging now d = Return text.
Proof.
  intros Hd. unfold Defect.get_aging, Defect.get_aging_hm, Defect.aging_delta.
  destruct (Defect.is_resolved d) eqn:Hres.
  - destruct (proj1 Hd Hres) as [t Ht]. rewrite Ht.
    destruct (Defect.hours_minutes (t - Defect.logged_at d)). now eexists.
  - destruct (Defect.hours_minutes (now - Defect.logged_at d)). now eexists.
Qed.

Lemma contains_empty (s : string) : contains EmptyString s = true.
Proof. apply contains_spec. now exists EmptyString, s. Qed.

Lemma numbered_length {A : Type} (i : nat) (l : list A) :
  length (numbered i l) = length l.
Proof. revert i. induction l as [|x l IH]; intros i; simpl; [reflexivity | now rewrite IH]. Qed.

Lemma contains_trans (a b c : string) :
  contains a b = true -> contains b c = true -> contains a c = true.
Proof.
  rewrite !contains_spec. intros (p1 & q1 & ->) (p2 & q2 & ->).
  exists (p2 ++ p1), (q1 ++ q2). now rewrite !append_assoc.
Qed.

Lemma table_rows_spec (clock : nat -> Z) (search_term : string) (w : World)
    (es : list (nat * Defect.t)) (i : nat) :
  entries_ok w es ->
  exists rows,
    WebView.table_rows clock search_term i (es.*1) w = (Return rows, w)
    /\ Forall2 (fun row '(j, (_, d)) => row_shows (clock j) row d) rows
         (List.filter
            (fun '(_, (_, d)) => contains (lower search_term) (WebView.row_text d))
            (numbered i es)).
Proof.
  intros Hes. revert i. induction Hes as [|[l d] es [Hd Hcons] _ IH]; intros i.
  - exists []. split; [reflexivity | constructor].
  - cbn [fst snd] in Hd, Hcons. rewrite fmap_cons. cbn [fst].
    simpl WebView.table_rows. bind_with (deref_some _ _ _ Hd).
    destruct (IH (S i)) as (rows & Hrun & Hrows).
    simpl numbered. simpl List.filter.
    destruct (contains (lower search_term) (WebView.row_text d)).
    + destruct (get_aging_consistent (clock i) d Hcons) as [text Htext].
      assert (Hlift : lift (Defect.get_aging (clock i) d) w = (Return text, w))
        by (unfold lift; now rewrite Htext).
      bind_with Hlift. bind_with Hrun. eexists. split; [reflexivity|].
      constructor; [|exact Hrows].
      unfold row_shows. cbn. repeat split. exact Htext.
    + exists rows. split; [exact Hrun | exact Hrows].
Qed.

Lemma table_rows_narrow (clock : nat -> Z) (term1 term2 : string) (w : World)
    (es : list (nat * Defect.t)) (i : nat) :
  entries_ok w es ->
  contains (lower term1) (lower term2) = true ->
  exists rows1 rows2,
    WebView.table_rows clock term1 i (es.*1) w = (Return rows1, w)
    /\ WebView.table_rows clock term2 i (es.*1) w = (Return rows2, w)
    /\ sublist rows2 rows1.
Proof.
  intros Hes Hsub. revert i. induction Hes as [|[l d] es [Hd Hcons] _ IH]; intros i.
  - exists [], []. split; [reflexivity|]. split; [reflexivity | constructor].
  - cbn [fst snd] in Hd, Hcons. rewrite fmap_cons. cbn [fst].
    simpl WebView.table_rows. rewrite !(run_bind_return _ _ _ _ _ (deref_some _ _ _ Hd)).
    cbv beta.
    destruct (IH (S i)) as (rows1 & rows2 & Hrun1 & Hrun2 & Hrows).
    destruct (get_aging_consistent (clock i) d Hcons) as [text Htext].
    assert (Hlift : lift (Defect.get_aging (clock i) d) w = (Return text, w))
      by (unfold lift; now rewrite Htext).
    destruct (contains (lower term2) (WebView.row_text d)) eqn:H2.
    + rewrite (contains_trans _ _ _ Hsub H2).
      rewrite !(run_bind_return _ _ _ _ _ Hlift). cbv beta.
      rewrite (run_bind_return _ _ _ _ _ Hrun1), (run_bind_return _ _ _ _ _ Hrun2).
      do 2 eexists. split; [reflexivity|]. split; [reflexivity|].
      now apply sublist_skip.
    + destruct (contains (lower term1) (WebView.row_text d)).
      * rewrite (run_bind_return _ _ _ _ _ Hlift). cbv beta.
        rewrite (run_bind_return _ _ _ _ _ Hrun1).
        do 2 eexists. split; [reflexivity|]. split; [exact Hrun2|].
        now apply sublist_cons.
      * exists rows1, rows2. split; [exact Hrun1|]. split; [exact Hrun2 | exact Hrows].
Qed.

Lemma triage_entries_ok (w : World) : invariant w -> entries_ok w (triage_entries w).
Proof.
  intros [Hc Hh _]. apply List.Forall_forall. intros [l d] Hin.
  apply (Permutation_in _ (list_sort_perm entry_lt _)) in Hin.
  apply snapshot_lookup in Hin as [_ Hd]. split; [exact Hd | exact (Hh l d Hd)].
Qed.

Lemma table_data_run (clock : nat -> Z) (search_term : string) (w : World) :
  log_closed w ->
  WebView.table_data clock search_term w =
    WebView.table_rows clock search_term 0 ((triage_entries w).*1) w.
Proof.
  intros Hc. unfold WebView.table_data.
  now bind_with (get_all_defects_sorted_closed w Hc).
Qed.

(** X11: in a reachable state, building the table changes nothing and
    never raises.  Number the log entries in triage order from 0: the rows
    display, in that order, exactly the entries for which the lower-cased
    search term occurs in the lower-cased text made of identifier, task,
    impact level, reporter and description with one space between them;
    each row carries the attributes of its object, its status, and the
    aging read at the time the clock gives for the number of the entry.
    With an empty term every entry of the log has its row. *)
Theorem table_data_spec (w : World) (clock : nat -> Z) (search_term : string) :
  reachable w ->
  exists rows,
    WebView.table_data clock search_term w = (Return rows, w)
    /\ Forall2 (fun row '(j, (_, d)) => row_shows (clock j) row d) rows
         (List.filter
            (fun '(_, (_, d)) =>
               contains (lower search_term)
                 (lower (Defect.id d ++ " " ++ Defect.task_name d ++ " "
                         ++ Defect.get_impact_level d ++ " " ++ Defect.logged_by d
                         ++ " " ++ Defect.description d)))
            (numbered 0 (triage_entries w)))
    /\ Permutation (triage_entries w).*1 (log_database w)
    /\ (lower search_term = EmptyString ->
        Forall2 (fun row '(j, (_, d)) => row_shows (clock j) row d) rows
          (numbered 0 (triage_entries w))
        /\ length rows = length (log_database w)).
Proof.
  intros Hr. pose proof (invariant_reachable w Hr) as Hinv.
  pose proof (inv_closed w Hinv) as Hc.
  destruct (table_rows_spec clock search_term w (triage_entries w) 0
              (triage_entries_ok w Hinv)) as (rows & Hrun & Hrows).
  assert (Hperm : Permutation (triage_entries w).*1 (log_database w)).
  { rewrite <- (snapshot_fst (heap w) (log_database w) Hc).
    apply Permutation_map. apply list_sort_perm. }
  exists rows. split; [now rewrite table_data_run|]. split; [exact Hrows|].
  split; [exact Hperm|].
  intros Hempty.
  rewrite filter_all in Hrows.
  - split; [exact Hrows|].
    rewrite (Forall2_length _ _ _ Hrows), numbered_length, <- (Permutation_length Hperm).
    now rewrite length_fmap.
  - apply List.Forall_forall. intros [j [l d]] _. rewrite Hempty. apply contains_empty.
Qed.

(** X11, on the state after the critical sample was reported: a term in
    mixed case that runs through all five fields finds the defect, whose
    row shows the aging at the time of its own reading; a term that
    spells the fields in another order finds nothing. *)
Lemma table_data_spec_witness :
  (exists rows,
     WebView.table_data (fun j => if Nat.eqb j 0 then 65 * Defect.minute_us else 0)
       "D-002 WIRING critical WORKER exposed" world_reported = (Return rows, world_reported)
     /\ rows = [ {| row_ID := "D-002"; row_Task := "Wiring"; row_Priority := "CRITICAL";
                    row_Status := "Unresolved"; row_Aging := "1h 4m";
                    row_Logged_By := "worker";
                    row_Description := "Exposed wire causing shock hazard" |} ])
  /\ WebView.table_data (fun _ => 0) "wiring d-002" world_reported
     = (Return [], world_reported).
Proof.
  assert (Hr : reachable world_reported).
  { eapply reachable_step; [eapply reachable_step; [apply reachable_start|]|].
    - apply step_create.
    - apply step_report. eexists. reflexivity. }
  split.
  - destruct (table_data_spec world_reported
                (fun j => if Nat.eqb j 0 then 65 * Defect.minute_us else 0)
                "D-002 WIRING critical WORKER exposed" Hr) as (rows & Hrun & _).
    exists rows. split; [exact Hrun|].
    assert (Hrun' : WebView.table_data
                      (fun j => if Nat.eqb j 0 then 65 * Defect.minute_us else 0)
                      "D-002 WIRING critical WORKER exposed" world_reported
                    = (Return [ {| row_ID := "D-002"; row_Task := "Wiring";
                                   row_Priority := "CRITICAL"; row_Status := "Unresolved";
                                   row_Aging := "1h 4m"; row_Logged_By := "worker";
                                   row_Description := "Exposed wire causing shock hazard" |} ],
                       world_reported)) by reflexivity.
    congruence.
  - destruct (table_data_spec world_reported (fun _ => 0) "wiring d-002" Hr)
      as (rows & Hrun & Hrows & _).
    assert (Hnone : rows = []) by (inversion Hrows; reflexivity).
    now rewrite Hrun, Hnone.
Defined.

(** X12: extending the search term only narrows the table: when one term
    occurs inside another (case ignored), every row shown for the longer
    term is shown for the shorter one, in the same order. *)
Theorem search_narrows (w : World) (clock : nat -> Z) (term1 term2 : string) :
  reachable w ->
  contains (lower term1) (lower term2) = true ->
  exists rows1 rows2,
    WebView.table_data clock term1 w = (Return rows1, w)
    /\ WebView.table_data clock term2 w = (Return rows2, w)
    /\ sublist rows2 rows1.
Proof.
  intros Hr Hsub. pose proof (invariant_reachable w Hr) as Hinv.
  pose proof (inv_closed w Hinv) as Hc.
  rewrite !(table_data_run _ _ w Hc).
  exact (table_rows_narrow clock term1 term2 w (triage_entries w) 0
           (triage_entries_ok w Hinv) Hsub).
Qed.

(** X12, on the state after the critical sample was reported: "wire"
    shows the defect, "wire nut" shows nothing. *)
Lemma search_narrows_witness :
  exists rows1 rows2,
    WebView.table_data (fun _ => 0) "wire" world_reported = (Return rows1, world_reported)
    /\ WebView.table_data (fun _ => 0) "Wire nut" world_reported
       = (Return rows2, world_reported)
    /\ sublist rows2 rows1
    /\ length rows1 = 1%nat
    /\ rows2 = [].
Proof.
  assert (Hr : reachable world_reported).
  { eapply reachable_step; [eapply reachable_step; [apply reachable_start|]|].
    - apply step_create.
    - apply step_report. eexists. reflexivity. }
  destruct (search_narrows world_reported (fun _ => 0) "wire" "Wire nut" Hr eq_refl)
    as (rows1 & rows2 & Hrun1 & Hrun2 & Hsub).
  exists rows1, rows2. split; [exact Hrun1|]. split; [exact Hrun2|]. split; [exact Hsub|].
  assert (H2 : WebView.table_data (fun _ => 0) "Wire nut" world_reported
               = (Return [], world_reported)) by reflexivity.
  assert (H1 : exists row, WebView.table_data (fun _ => 0) "wire" world_reported
               = (Return [row], world_reported)) by (eexists; reflexivity).
  destruct H1 as [row H1]. split; [|congruence].
  assert (rows1 = [row]) by congruence. now subst rows1.
Defined.

(** ** The configuration *)

(** X13: a missing or unreadable [application.json] is replaced by the
    defaults, unless writing it fails, in which case the construction
    fails; a readable one is used as it is and not written.  Whatever was
    the case, building the manager again on the file left behind gives the
    same properties and leaves the file alone.  Under the defaults a
    password is accepted exactly when it hashes like "sigma123"; when the
    properties have no "admin.hash", no password is accepted. *)
Theorem config_fallback (hash_password : string -> string) :
  (forall f, f = CfgMissing \/ f = CfgUnreadable ->
     ConfigManager.init hash_password true f =
       Some (ConfigManager.default_props hash_password,
             CfgProps (ConfigManager.default_props hash_password))
     /\ ConfigManager.init hash_password false f = None)
  /\ (forall props write_ok,
        ConfigManager.init hash_password write_ok (CfgProps props) =
          Some (props, CfgProps props))
  /\ (forall f write_ok write_ok' props f',
        ConfigManager.init hash_password write_ok f = Some (props, f') ->
        ConfigManager.init hash_password write_ok' f' = Some (props, f'))
  /\ (forall admin_pass,
        ConfigManager.manager_login hash_password
          (ConfigManager.default_props hash_password) admin_pass = true
        <-> hash_password admin_pass = hash_password "sigma123")
  /\ (forall props admin_pass,
        ConfigManager.get_property props "admin.hash" = None ->
        ConfigManager.manager_login hash_password props admin_pass = false)
  /\ (forall key,
        ConfigManager.get_property (ConfigManager.default_props hash_password) key <> None
        <-> key = "db.url" \/ key = "db.user" \/ key = "db.password" \/ key = "admin.hash").
Proof.
  assert (Hadmin : ConfigManager.get_property (ConfigManager.default_props hash_password)
                     "admin.hash" = Some (hash_password "sigma123")).
  { unfold ConfigManager.get_property, ConfigManager.default_props.
    rewrite !lookup_insert_ne by discriminate. apply lookup_insert_eq. }
  split; [|split; [|split; [|split; [|split]]]].
  - intros f [-> | ->]; split; reflexivity.
  - reflexivity.
  - intros f write_ok write_ok' props f' H.
    destruct f; simpl in H; unfold ConfigManager.create_default_config in H;
      try (destruct write_ok; [|discriminate]); inversion H; reflexivity.
  - intros admin_pass. unfold ConfigManager.manager_login. rewrite Hadmin.
    apply String.eqb_eq.
  - intros props admin_pass H. unfold ConfigManager.manager_login. now rewrite H.
  - intros key. unfold ConfigManager.get_property, ConfigManager.default_props. split.
    + intros H.
      destruct (decide (key = "db.url")) as [|H1]; [tauto|].
      destruct (decide (key = "db.user")) as [|H2]; [tauto|].
      destruct (decide (key = "db.password")) as [|H3]; [tauto|].
      destruct (decide (key = "admin.hash")) as [|H4]; [tauto|].
      exfalso. apply H.
      rewrite !lookup_insert_ne by congruence. apply lookup_singleton_ne. congruence.
    + intros [-> | [-> | [-> | ->]]];
        repeat (rewrite lookup_insert_ne by discriminate);
        rewrite ?lookup_insert_eq, ?lookup_singleton_eq; discriminate.
Qed.

(** X13, with a sample hash function: after a start without a file the
    default password is accepted and another one is not. *)
Lemma config_fallback_witness :
  exists props f,
    ConfigManager.init sample_hash true CfgMissing = Some (props, f)
    /\ ConfigManager.init sample_hash false f = Some (props, f)
    /\ ConfigManager.manager_login sample_hash props "sigma123" = true
    /\ ConfigManager.manager_login sample_hash props "sigma124" = false.
Proof.
  destruct (config_fallback sample_hash) as (Hmissing & _ & Hagain & _).
  destruct (Hmissing CfgMissing (or_introl eq_refl)) as [Hinit _].
  do 2 eexists. split; [exact Hinit|].
  split; [exact (Hagain _ _ false _ _ Hinit)|]. split; reflexivity.
Defined.
